(** * THD file-backed store: a model of [FileStore.cpp]

    The store keeps an append-only log of (key, value) records in one file
    shared by every process.  Each [FileStore] instance holds a private
    read cursor [pos_] and a cache [cache_] filled by replaying the log.

    The model follows the C++ source method by method:
    - the file is a list of bytes, a [File] object is the bytes together
      with the offset of its descriptor;
    - [int pos_] is a 32-bit signed integer, [uint32_t len] a 32-bit
      unsigned one, [int64_t ti] a 64-bit signed one, each with its
      conversion written out;
    - a C++ exception, the use of an uninitialised variable and a loop
      that does not finish are outcomes of their own;
    - the [Lock] object ([flock(2)], shared or exclusive) is held from
      just after [open] to the end of each method, so a method sees one
      state of the file and changes it in one step; the polling loops of
      [get] and [wait] take the file anew at each pass;
    - for threads that call [add] at the same time, [add] is also taken
      statement by statement, with the lock as [flock(2)] grants it
      ([worker_step]); run by one thread alone these steps are [add]. *)

From stdpp Require Import base option list gmap strings.
From Stdlib Require Import ZArith Lia Strings.Byte Strings.Ascii.

Local Open Scope Z_scope.

(** ** Outcomes *)

(** The two exception classes thrown in [FileStore.cpp]:
    [std::system_error] (carrying [errno]) and [std::runtime_error]. *)
Inductive exn : Type :=
| system_error (errno : Z)
| runtime_error (what : string).

Definition ENOENT : Z := 2.
Definition EINVAL : Z := 22.

Inductive outcome (A : Type) : Type :=
| Ret (a : A)        (* normal return *)
| Throw (e : exn)    (* a C++ exception leaves the method *)
| Undef              (* behaviour not defined by the language: an
                        uninitialised [len] is used, or [ti += i] overflows *)
| Spin.              (* the loop is still polling when the fuel ends *)
Arguments Ret {A} a.
Arguments Throw {A} e.
Arguments Undef {A}.
Arguments Spin {A}.

Definition bind {A B : Type} (m : outcome A) (k : A -> outcome B) : outcome B :=
  match m with
  | Ret a => k a
  | Throw e => Throw e
  | Undef => Undef
  | Spin => Spin
  end.

Notation "'let*' x ':=' m 'in' k" := (bind m (fun x => k))
  (at level 10, x pattern, m at level 100, k at level 200).

(** ** Fixed-width integers *)

(** Conversion of an [off_t] or [size_t] to [uint32_t]. *)
Definition to_uint32 (z : Z) : Z := z mod 2 ^ 32.

(** Conversion of an [off_t] to [int] (two's complement, 32 bits). *)
Definition to_int (z : Z) : Z := (z + 2 ^ 31) mod 2 ^ 32 - 2 ^ 31.

Definition INT64_MIN : Z := - 2 ^ 63.
Definition INT64_MAX : Z := 2 ^ 63 - 1.

Definition in_int64 (z : Z) : bool := (INT64_MIN <=? z) && (z <=? INT64_MAX).

(** ** Bytes *)

Definition byte_of_Z (z : Z) : byte :=
  default x00 (Byte.of_N (Z.to_N (z mod 256))).

Definition Z_of_byte (b : byte) : Z := Z.of_N (Byte.to_N b).

(** The four bytes of a [uint32_t] in memory (little-endian, as on x86-64
    and AArch64, the platforms the reader and the writer share). *)
Definition le32 (n : Z) : list byte :=
  [byte_of_Z n; byte_of_Z (n / 2 ^ 8); byte_of_Z (n / 2 ^ 16); byte_of_Z (n / 2 ^ 24)].

Definition le32_val (bs : list byte) : Z :=
  match bs with
  | [b0; b1; b2; b3] =>
      Z_of_byte b0 + 2 ^ 8 * Z_of_byte b1 + 2 ^ 16 * Z_of_byte b2 + 2 ^ 24 * Z_of_byte b3
  | _ => 0
  end.

(** Length of a [std::string] and of a byte buffer, as [size_t]. *)
Definition strlen (s : string) : Z := Z.of_nat (String.length s).
Definition blen (bs : list byte) : Z := Z.of_nat (length bs).

(** ** The [File] class: a descriptor on the shared file *)

(** [fd_bytes] is the content of the file the descriptor is opened on
    (the methods run while the lock is held, so only this descriptor
    changes it); [fd_off] is the file offset of the descriptor. *)
Record File : Type := mkFile { fd_bytes : list byte; fd_off : Z }.

Inductive open_flags : Type := O_RDONLY | O_RDWR_CREAT.

Inductive whence : Type := SEEK_SET | SEEK_END.

(** [File::File]: [open(2)] on the path; [None] is a path with no file.
    Without [O_CREAT] a missing file is [ENOENT]; with it the file is
    created empty.  A fresh descriptor is at offset 0. *)
Definition File_open (fs : option (list byte)) (flags : open_flags) : outcome File :=
  match fs, flags with
  | Some bs, _ => Ret (mkFile bs 0)
  | None, O_RDWR_CREAT => Ret (mkFile [] 0)
  | None, O_RDONLY => Throw (system_error ENOENT)
  end.

(** [File::seek]: [lseek(2)], which fails with [EINVAL] on a negative
    resulting offset; [SYSASSERT(rv)] then throws. *)
Definition seek (f : File) (offset : Z) (w : whence) : outcome (Z * File) :=
  let target := match w with
                | SEEK_SET => offset
                | SEEK_END => blen (fd_bytes f) + offset
                end in
  if target <? 0 then Throw (system_error EINVAL)
  else Ret (target, mkFile (fd_bytes f) target).

(** [File::tell]: [lseek(fd_, 0, SEEK_CUR)]. *)
Definition tell (f : File) : outcome Z :=
  if fd_off f <? 0 then Throw (system_error EINVAL) else Ret (fd_off f).

(** [File::size]. *)
Definition size (f : File) : outcome (Z * File) :=
  let* pos := tell f in
  let* (sz, f1) := seek f 0 SEEK_END in
  let* (_, f2) := seek f1 pos SEEK_SET in
  Ret (sz, f2).

(** [write(2)] of a buffer at the descriptor's offset: bytes already
    there are overwritten, the file grows where the buffer passes its
    end, and a gap before the offset reads as zero bytes.
    [SYSCHECK] throws when [errno < 0], which no [errno] value is, so the
    call never throws. *)
Definition write (f : File) (buf : list byte) : File :=
  let off := Z.to_nat (fd_off f) in
  let old := fd_bytes f in
  mkFile (take off (old ++ replicate (off - length old) x00) ++ buf
            ++ drop (off + length buf) old)
         (fd_off f + blen buf).

(** [read(2)] of at most [count] bytes at the descriptor's offset: the
    bytes that are there, fewer than [count] at the end of the file. *)
Definition read (f : File) (count : Z) : list byte * File :=
  let got := take (Z.to_nat count) (drop (Z.to_nat (fd_off f)) (fd_bytes f)) in
  (got, mkFile (fd_bytes f) (fd_off f + blen got)).

(** [File::writeString]. *)
Definition writeString (f : File) (str : string) : File :=
  let len := to_uint32 (strlen str) in
  let f1 := write f (le32 len) in
  write f1 (take (Z.to_nat len) (String.list_byte_of_string str)).

(** [File::readString].  [len] is declared without a value and [read]
    fills only the bytes it gets: with fewer than four, [len] is used
    partly uninitialised.  [buf] is [len] zero bytes, of which [read]
    overwrites the first ones; the string is the whole of [buf]. *)
Definition readString (f : File) : outcome (string * File) :=
  let '(hdr, f1) := read f 4 in
  if blen hdr <? 4 then Undef
  else
    let len := le32_val hdr in
    let '(got, f2) := read f1 len in
    let buf := got ++ replicate (Z.to_nat len - length got) x00 in
    Ret (String.string_of_list_byte buf, f2).

(** ** The [FileStore] class *)

Record FileStore : Type := mkStore { pos_ : Z; cache_ : gmap string string }.

(** [FileStore::FileStore]: [pos_(0)] and an empty cache. *)
Definition FileStore_new : FileStore := mkStore 0 ∅.

(** The loop [while (size > pos_) { readString; readString; cache_[k] = v;
    pos_ = file.tell(); }] that [get], [add] and [check] each contain. *)
Fixpoint replay (fuel : nat) (sz : Z) (f : File) (st : FileStore)
  : outcome (File * FileStore) :=
  if sz >? pos_ st then
    match fuel with
    | O => Spin
    | S fuel' =>
        let* (tmpKey, f1) := readString f in
        let* (tmpValue, f2) := readString f1 in
        let* p := tell f2 in
        replay fuel' sz f2 (mkStore (to_int p) (<[tmpKey := tmpValue]> (cache_ st)))
    end
  else Ret (f, st).

(** Iterations granted to [replay]: each one that completes moves the
    offset forward by at least eight bytes, so the length of the file is
    never used up (lemma [replay_no_Spin]). *)
Definition replay_fuel (f : File) : nat := S (length (fd_bytes f)).

(** [FileStore::set]. *)
Definition set (name data : string) (st : FileStore) (fs : option (list byte))
  : outcome (FileStore * option (list byte)) :=
  let* file := File_open fs O_RDWR_CREAT in
  let* (_, file) := seek file 0 SEEK_END in
  let file := writeString file name in
  let file := writeString file data in
  Ret (st, Some (fd_bytes file)).

(** [FileStore::get].  [world i] is the file as the [i]-th pass of the
    outer loop finds it (other processes may append between passes). *)
Fixpoint get_loop (fuel : nat) (world : nat -> option (list byte)) (i : nat)
    (key : string) (st : FileStore) : outcome (string * FileStore) :=
  match cache_ st !! key with
  | Some v => Ret (v, st)
  | None =>
      match fuel with
      | O => Spin
      | S fuel' =>
          let* file := File_open (world i) O_RDONLY in
          let* (sz, file) := size file in
          if sz =? pos_ st then get_loop fuel' world (S i) key st
          else
            let* (_, file) := seek file (pos_ st) SEEK_SET in
            let* (_, st') := replay (replay_fuel file) sz file st in
            get_loop fuel' world (S i) key st'
      end
  end.

Definition get (fuel : nat) (key : string) (st : FileStore) (fs : option (list byte))
  : outcome (string * FileStore) :=
  get_loop fuel (fun _ => fs) 0%nat key st.

(** [std::isspace] in the classic locale. *)
Definition isspace (c : ascii) : bool :=
  let n := Z.of_nat (nat_of_ascii c) in
  (n =? 32) || ((9 <=? n) && (n <=? 13)).

Definition digit_of (c : ascii) : option Z :=
  let n := Z.of_nat (nat_of_ascii c) in
  if (48 <=? n) && (n <=? 57) then Some (n - 48) else None.

Fixpoint skipws (s : string) : string :=
  match s with
  | String c r => if isspace c then skipws r else s
  | EmptyString => s
  end.

(** Value of the leading decimal digits of [s] after [acc], and whether
    there was one. *)
Fixpoint read_digits (s : string) (acc : Z) (seen : bool) : Z * bool :=
  match s with
  | String c r =>
      match digit_of c with
      | Some d => read_digits r (10 * acc + d) true
      | None => (acc, seen)
      end
  | EmptyString => (acc, seen)
  end.

(** [sin >> ti] for an [int64_t] that holds 0: leading white space is
    skipped, then an optional sign and decimal digits are read; with no
    digit the value stays 0, out of range it is the nearest bound. *)
Definition extract_int64 (s : string) : Z :=
  let s := skipws s in
  let '(neg, s) := match s with
                   | String "-"%char r => (true, r)
                   | String "+"%char r => (false, r)
                   | _ => (false, s)
                   end in
  let '(v, seen) := read_digits s 0 false in
  if seen then Z.max INT64_MIN (Z.min INT64_MAX (if neg then - v else v)) else 0.

(** The character of a decimal digit ('0' is 48). *)
Definition digit_char (d : Z) : ascii := ascii_of_nat (Z.to_nat (48 + d)).

(** Decimal digits of a non-negative number, most significant first. *)
Fixpoint digits (fuel : nat) (n : Z) (acc : string) : string :=
  match fuel with
  | O => acc
  | S fuel' =>
      let acc' := String (digit_char (n mod 10)) acc in
      if n <? 10 then acc' else digits fuel' (n / 10) acc'
  end.

(** [sout << ti] for an [int64_t] (at most 19 digits). *)
Definition to_string (z : Z) : string :=
  if z <? 0 then String "-"%char (digits 20 (- z) EmptyString)
  else digits 20 z EmptyString.

(** [FileStore::add].  [cache_[key]] inserts the empty string for a key
    the map does not hold. *)
Definition add (key : string) (i : Z) (st : FileStore) (fs : option (list byte))
  : outcome (Z * FileStore * option (list byte)) :=
  let* file := File_open fs O_RDWR_CREAT in
  let* (sz, file) := size file in
  let* (file, st) := (if sz >? pos_ st then
                    let* (_, file) := seek file (pos_ st) SEEK_SET in
                    replay (replay_fuel file) sz file st
                  else Ret (file, st)) in
  let cached := default EmptyString (cache_ st !! key) in
  let st := mkStore (pos_ st) (<[key := cached]> (cache_ st)) in
  let ti := extract_int64 cached + i in
  if in_int64 ti then
    let file := writeString file key in
    let file := writeString file (to_string ti) in
    Ret (ti, st, Some (fd_bytes file))
  else Undef.

(** [FileStore::check]. *)
Definition check (keys : list string) (st : FileStore) (fs : option (list byte))
  : outcome (bool * FileStore) :=
  let* file := File_open fs O_RDONLY in
  let* (sz, file) := size file in
  let* (_, st) := (if sz =? pos_ st then Ret (file, st)
               else
                 let* (_, file) := seek file (pos_ st) SEEK_SET in
                 replay (replay_fuel file) sz file st) in
  Ret (forallb (fun key => bool_decide (is_Some (cache_ st !! key))) keys, st).

(** [duration_cast<seconds>] of a [steady_clock] difference in
    nanoseconds: the quotient truncated toward zero. *)
Definition duration_cast_seconds (ns : Z) : Z := Z.quot ns 1000000000.

(** [FileStore::wait].  [clock n] is the [n]-th reading of
    [steady_clock::now()] in nanoseconds: reading 0 is [start], reading
    [S i] follows the [i]-th failed [check].  [timeout] and [kNoTimeout]
    are in milliseconds; [elapsed > timeout] compares a number of seconds
    with a number of milliseconds, in milliseconds.  [kNoTimeout] is the
    constant of [Store.hpp]. *)
Fixpoint wait_loop (fuel : nat) (kNoTimeout : Z) (clock : nat -> Z)
    (world : nat -> option (list byte)) (i : nat)
    (names : list string) (timeout : Z) (start : Z) (st : FileStore)
  : outcome (unit * FileStore) :=
  match fuel with
  | O => Spin
  | S fuel' =>
      let* (ok, st) := check names st (world i) in
      if ok then Ret (tt, st)
      else
        let elapsed := duration_cast_seconds (clock (S i) - start) in
        if negb (timeout =? kNoTimeout) && (elapsed * 1000 >? timeout)
        then Throw (runtime_error "Wait timeout")
        else wait_loop fuel' kNoTimeout clock world (S i) names timeout start st
  end.

Definition wait (fuel : nat) (kNoTimeout : Z) (clock : nat -> Z)
    (world : nat -> option (list byte))
    (names : list string) (timeout : Z) (st : FileStore)
  : outcome (unit * FileStore) :=
  wait_loop fuel kNoTimeout clock world 0%nat names timeout (clock 0%nat) st.

(** ** The log format *)

(** The bytes [writeString] produces for a string. *)
Definition encode_str (s : string) : list byte :=
  le32 (to_uint32 (strlen s))
    ++ take (Z.to_nat (to_uint32 (strlen s))) (String.list_byte_of_string s).

Definition encode_record (r : string * string) : list byte :=
  encode_str (fst r) ++ encode_str (snd r).

Fixpoint encode_log (rs : list (string * string)) : list byte :=
  match rs with
  | [] => []
  | r :: rs' => encode_record r ++ encode_log rs'
  end.

(** The cache after the records [rs] are replayed, in file order. *)
Definition apply_log (rs : list (string * string)) (m : gmap string string)
  : gmap string string :=
  foldl (fun m r => <[fst r := snd r]> m) m rs.

(** A string whose length fits the 32-bit prefix. *)
Definition short (s : string) : Prop := strlen s < 2 ^ 32.

Definition short_log (rs : list (string * string)) : Prop :=
  Forall (fun r => short (fst r) /\ short (snd r)) rs.

(** [pos_ st] is at the start of the complete records [rs], which reach
    the end of the file [bs]; the file fits the [int] cursor. *)
Definition synced (st : FileStore) (bs pre : list byte)
    (rs : list (string * string)) : Prop :=
  bs = pre ++ encode_log rs /\ pos_ st = blen pre /\ short_log rs
  /\ blen bs < 2 ^ 31.

(** End of the length-prefixed string that starts at [off], when the file
    holds all of it (the [Str] of the file format). *)
Definition string_end (bs : list byte) (off : Z) : option Z :=
  if off + 4 <=? blen bs then
    let len := le32_val (take 4 (drop (Z.to_nat off) bs)) in
    if off + 4 + len <=? blen bs then Some (off + 4 + len) else None
  else None.

(** Offsets at which a record of the log starts or the last complete one
    ends, found by walking the file from [off]. *)
Fixpoint boundaries_from (fuel : nat) (bs : list byte) (off : Z) : list Z :=
  off ::
  match fuel with
  | O => []
  | S fuel' =>
      match string_end bs off with
      | Some off1 =>
          match string_end bs off1 with
          | Some off2 => boundaries_from fuel' bs off2
          | None => []
          end
      | None => []
      end
  end.

Definition record_boundaries (bs : list byte) : list Z :=
  boundaries_from (length bs) bs 0.



(** The string [readString] builds when [read] returns only the bytes
    [got] of the [len] it asked for: [buf] keeps its zero bytes after them. *)
Definition padded (got : list byte) (len : Z) : string :=
  String.string_of_list_byte (got ++ replicate (Z.to_nat len - length got) x00).

(** A log cut inside its only record: the key "k", then a value
    announced as two bytes of which one is there. *)
Definition cut_log : list byte := encode_str "k" ++ le32 2 ++ ["a"%byte].

(** A poll every 10 ms exactly: the [n]-th reading of the clock, in
    nanoseconds. *)
Definition clock_10ms (n : nat) : Z := Z.of_nat n * 10000000.

(** Instances calling [add key 1] one whole call after the other:
    [sched] lists, call after call, the index of the instance that makes
    it. *)
Fixpoint run_adds (key : string) (sched : list nat) (insts : list FileStore)
    (fs : option (list byte)) : outcome (list FileStore * option (list byte)) :=
  match sched with
  | [] => Ret (insts, fs)
  | j :: sched' =>
      match insts !! j with
      | Some st =>
          let* (r, fs') := add key 1 st fs in
          run_adds key sched' (<[j := snd r]> insts) fs'
      | None => run_adds key sched' insts fs
      end
  end.

(** Bytes the log grows by when the counter goes from 0 to [n] in steps
    of one. *)
Fixpoint counter_growth (key : string) (n : nat) : Z :=
  match n with
  | O => 0
  | S n' => counter_growth key n'
            + blen (encode_record (key, to_string (Z.of_nat n)))
  end.

(** The text of the counter after [n] increments from nothing: no entry
    before the first one. *)
Definition counter_text (n : nat) : option string :=
  match n with
  | O => None
  | S _ => Some (to_string (Z.of_nat n))
  end.

(** An instance between two of its calls, [n] increments having been
    logged: its cursor is at the start of complete records that reach the
    end of the log, behind that end unless the log is empty, and replaying
    them brings its cache to the current counter. *)
Definition inst_ok (key : string) (n : nat) (bs : list byte) (st : FileStore)
  : Prop :=
  exists pre rs,
    bs = pre ++ encode_log rs /\ pos_ st = blen pre /\ short_log rs
    /\ (rs <> [] \/ bs = [])
    /\ apply_log rs (cache_ st) !! key = counter_text n.

(** One instance calling [add key d] for each [d] of [ds] in turn: the
    values returned, the instance and the file at the end. *)
Fixpoint run_deltas (key : string) (ds : list Z) (st : FileStore)
    (fs : option (list byte))
  : outcome (list Z * FileStore * option (list byte)) :=
  match ds with
  | [] => Ret ([], st, fs)
  | d :: ds' =>
      let* (r, fs1) := add key d st fs in
      let* (rest, fs2) := run_deltas key ds' (snd r) fs1 in
      Ret (fst r :: fst rest, snd rest, fs2)
  end.

(** The running totals of [ds] from [t]. *)
Fixpoint sums (t : Z) (ds : list Z) : list Z :=
  match ds with
  | [] => []
  | d :: ds' => (t + d) :: sums (t + d) ds'
  end.

(** An instance between two of its calls when the counter stands at [t]:
    as [inst_ok], with the number the cached text is read as. *)
Definition inst_at (key : string) (t : Z) (bs : list byte) (st : FileStore)
  : Prop :=
  exists pre rs,
    bs = pre ++ encode_log rs /\ pos_ st = blen pre /\ short_log rs
    /\ (rs <> [] \/ bs = [])
    /\ extract_int64 (default EmptyString (apply_log rs (cache_ st) !! key)) = t.

(** Successive [set] calls of one instance, one per record of [rs]. *)
Fixpoint run_sets (rs : list (string * string)) (st : FileStore)
    (fs : option (list byte)) : outcome (FileStore * option (list byte)) :=
  match rs with
  | [] => Ret (st, fs)
  | r :: rs' =>
      let* (st1, fs1) := set (fst r) (snd r) st fs in
      run_sets rs' st1 fs1
  end.

(** ** System calls that a signal interrupts *)

Definition EINTR : Z := 4.

(** [Lock::flock].  [calls] holds, for the successive calls of
    [::flock], the value returned and [errno]; the loop is still retrying
    when they run out. *)
Fixpoint Lock_flock (calls : list (Z * Z)) : outcome unit :=
  match calls with
  | [] => Spin
  | (rv, errno) :: rest =>
      if rv =? -1 then
        if errno =? EINTR then Lock_flock rest
        else Throw (system_error errno)
      else Ret tt
  end.

(** The loop of [File::File] over the successive results of [::open]:
    the descriptor of the first call that is not interrupted. *)
Fixpoint File_ctor (calls : list (Z * Z)) : outcome Z :=
  match calls with
  | [] => Spin
  | (fd, errno) :: rest =>
      if fd <? 0 then
        if errno =? EINTR then File_ctor rest
        else Throw (system_error errno)
      else Ret fd
  end.

(** ** The [Lock] object *)

Inductive flock_op : Type := LOCK_SH | LOCK_EX | LOCK_UN.

Record Lock : Type := mkLock { fd_ : Z }.

(** The move constructor: the new object and what is left of [other]. *)
Definition Lock_move (other : Lock) : Lock * Lock :=
  (mkLock (fd_ other), mkLock (-1)).

(** [Lock::~Lock]: the [flock] requests it makes. *)
Definition Lock_dtor (l : Lock) : list (Z * flock_op) :=
  if fd_ l >=? 0 then [(fd_ l, LOCK_UN)] else [].

(** A lock handed on [n] times (returned by value, bound to a variable):
    the object that holds it at the end and the moved-from objects, in the
    order they were left behind. *)
Fixpoint Lock_moves (n : nat) (l : Lock) : Lock * list Lock :=
  match n with
  | O => (l, [])
  | S n' =>
      let '(new, old) := Lock_move l in
      let '(last, olds) := Lock_moves n' new in
      (last, old :: olds)
  end.

(** ** [add] statement by statement, under [flock(2)] *)

(** The locks [flock(2)] keeps for the log file: none, shared locks held
    through some descriptors, or the exclusive lock held through one. *)
Inductive lock_state : Type :=
| Free
| SharedBy (fds : list Z)
| ExclusiveBy (fd : Z).

(** [::flock(fd, op)]: the value returned, [errno] and the locks after
    the call; [None] while the caller sleeps because another descriptor
    holds a lock that excludes the one asked for.  With [sig] a signal
    arrives during that sleep and the call returns -1 with [EINTR]. *)
Definition sys_flock (fd : Z) (op : flock_op) (sig : bool) (l : lock_state)
  : option (Z * Z * lock_state) :=
  let asleep := if sig then Some (-1, EINTR, l) else None in
  match op, l with
  | LOCK_UN, Free => Some (0, 0, Free)
  | LOCK_UN, SharedBy fds =>
      let rest := filter (fun h => h <> fd) fds in
      Some (0, 0, match rest with [] => Free | _ => SharedBy rest end)
  | LOCK_UN, ExclusiveBy h =>
      Some (0, 0, if decide (h = fd) then Free else l)
  | LOCK_EX, Free => Some (0, 0, ExclusiveBy fd)
  | LOCK_EX, SharedBy fds =>
      match filter (fun h => h <> fd) fds with
      | [] => Some (0, 0, ExclusiveBy fd)
      | _ => asleep
      end
  | LOCK_EX, ExclusiveBy h =>
      if decide (h = fd) then Some (0, 0, l) else asleep
  | LOCK_SH, Free => Some (0, 0, SharedBy [fd])
  | LOCK_SH, SharedBy fds =>
      Some (0, 0, SharedBy (fd :: filter (fun h => h <> fd) fds))
  | LOCK_SH, ExclusiveBy h =>
      if decide (h = fd) then Some (0, 0, SharedBy [fd]) else asleep
  end.

(** What the threads share: the file at the path and its locks. *)
Record Kernel : Type :=
  mkKernel { k_file : option (list byte); k_lock : lock_state }.

(** The [flock] requests of a destructor, each made through
    [Lock::flock]. *)
Fixpoint Lock_requests (reqs : list (Z * flock_op)) (l : lock_state)
  : outcome lock_state :=
  match reqs with
  | [] => Ret l
  | (fd, op) :: reqs' =>
      match sys_flock fd op false l with
      | Some (rv, errno, l') =>
          let* _ := Lock_flock [(rv, errno)] in Lock_requests reqs' l'
      | None => Spin
      end
  end.

(** Lines 184 to 205 of [FileStore::add], between [file.size()] and the
    two [writeString]: the refresh, then the new value. *)
Definition add_refresh (key : string) (i : Z) (sz : Z) (st : FileStore)
    (file : File) : outcome (Z * FileStore * File) :=
  let* (file, st) := (if sz >? pos_ st then
                    let* (_, file) := seek file (pos_ st) SEEK_SET in
                    replay (replay_fuel file) sz file st
                  else Ret (file, st)) in
  let cached := default EmptyString (cache_ st !! key) in
  let st := mkStore (pos_ st) (<[key := cached]> (cache_ st)) in
  let ti := extract_int64 cached + i in
  if in_int64 ti then Ret (ti, st, file) else Undef.

(** Where a thread stands in [store.add(key, 1)]: before a statement of
    [FileStore::add], or before the destructor of [lock] or of [file]. *)
Inductive add_pc : Type :=
| AtOpen                  (* File file(path_, O_RDWR | O_CREAT) *)
| AtLock                  (* auto lock = file.lockExclusive() *)
| AtSize                  (* auto size = file.size() *)
| AtRefresh (sz : Z)      (* if (size > pos_) ... ti += i *)
| AtWriteKey (ti : Z)     (* file.writeString(key) *)
| AtWriteValue (ti : Z)   (* file.writeString(sout.str()) *)
| AtUnlock (ti : Z)       (* ~Lock *)
| AtClose (ti : Z).       (* ~File, return ti *)

(** A thread of the test: its store, the calls of [add] it has still to
    return from, where it stands in the current one, and the offset of
    the descriptor of its [File]. *)
Record Worker : Type :=
  mkWorker { w_store : FileStore; w_todo : nat; w_pc : add_pc; w_off : Z }.

(** One step of thread [j], whose descriptor is numbered [j]: the
    statement it stands before, run on the file and the locks as they are
    at that moment.  A thread asleep in [flock], or one that has left its
    loop, stays as it is; an interrupted [flock] is called again at the
    next step. *)
Definition worker_step (key : string) (j : nat) (sig : bool) (w : Worker)
    (k : Kernel) : outcome (Worker * Kernel) :=
  let fd := Z.of_nat j in
  let file := mkFile (default [] (k_file k)) (w_off w) in
  match w_todo w with
  | O => Ret (w, k)
  | S todo' =>
      match w_pc w with
      | AtOpen =>
          let* file := File_open (k_file k) O_RDWR_CREAT in
          Ret (mkWorker (w_store w) (w_todo w) AtLock (fd_off file),
               mkKernel (Some (fd_bytes file)) (k_lock k))
      | AtLock =>
          match sys_flock fd LOCK_EX sig (k_lock k) with
          | Some (rv, errno, l) =>
              match Lock_flock [(rv, errno)] with
              | Ret _ => Ret (mkWorker (w_store w) (w_todo w) AtSize (w_off w),
                              mkKernel (k_file k) l)
              | Spin => Ret (w, mkKernel (k_file k) l)
              | Throw e => Throw e
              | Undef => Undef
              end
          | None => Ret (w, k)
          end
      | AtSize =>
          let* (sz, file) := size file in
          Ret (mkWorker (w_store w) (w_todo w) (AtRefresh sz) (fd_off file), k)
      | AtRefresh sz =>
          let* (r, file) := add_refresh key 1 sz (w_store w) file in
          Ret (mkWorker (snd r) (w_todo w) (AtWriteKey (fst r)) (fd_off file), k)
      | AtWriteKey ti =>
          let file := writeString file key in
          Ret (mkWorker (w_store w) (w_todo w) (AtWriteValue ti) (fd_off file),
               mkKernel (Some (fd_bytes file)) (k_lock k))
      | AtWriteValue ti =>
          let file := writeString file (to_string ti) in
          Ret (mkWorker (w_store w) (w_todo w) (AtUnlock ti) (fd_off file),
               mkKernel (Some (fd_bytes file)) (k_lock k))
      | AtUnlock ti =>
          let* l := Lock_requests (Lock_dtor (mkLock fd)) (k_lock k) in
          Ret (mkWorker (w_store w) (w_todo w) (AtClose ti) (w_off w),
               mkKernel (k_file k) l)
      | AtClose ti =>
          Ret (mkWorker (w_store w) todo' AtOpen 0, k)
      end
  end.

(** The threads run as the scheduler has it: [sched] names, step after
    step, the thread that moves and whether a signal reaches it. *)
Fixpoint run_workers (key : string) (sched : list (nat * bool))
    (ws : list Worker) (k : Kernel) : outcome (list Worker * Kernel) :=
  match sched with
  | [] => Ret (ws, k)
  | (j, sig) :: sched' =>
      match ws !! j with
      | Some w =>
          let* (w', k') := worker_step key j sig w k in
          run_workers key sched' (<[j := w']> ws) k'
      | None => run_workers key sched' ws k
      end
  end.

(** Every thread has left its loop: [thread.join()] returns for each. *)
Definition joined (ws : list Worker) : bool :=
  forallb (fun w => Nat.eqb (w_todo w) 0) ws.

(** Statements that run between the grant of the exclusive lock and its
    release. *)
Definition critical (pc : add_pc) : bool :=
  match pc with
  | AtOpen | AtLock | AtClose _ => false
  | AtSize | AtRefresh _ | AtWriteKey _ | AtWriteValue _ | AtUnlock _ => true
  end.

(** Records a thread has still to append. *)
Definition calls_left (w : Worker) : nat :=
  match w_pc w with
  | AtUnlock _ | AtClose _ => pred (w_todo w)
  | _ => w_todo w
  end.

(** Steps a thread has still to take: eight for each call. *)
Definition steps_left (w : Worker) : nat :=
  match w_todo w with
  | O => 0
  | S _ =>
      8 * w_todo w
      - match w_pc w with
        | AtOpen => 0
        | AtLock => 1
        | AtSize => 2
        | AtRefresh _ => 3
        | AtWriteKey _ => 4
        | AtWriteValue _ => 5
        | AtUnlock _ => 6
        | AtClose _ => 7
        end
  end.

(** A thread between two steps when [n] increments are logged, [bs]
    being the log with the records written in full and [file] the bytes
    of the file.  Its store is between two calls on [bs] until the
    refresh, and on the log with its own record from then on; inside the
    lock the file and the offset of its descriptor are known. *)
Definition worker_ok (key : string) (n : nat) (bs file : list byte)
    (w : Worker) : Prop :=
  let bs' := bs ++ encode_record (key, to_string (Z.of_nat (S n))) in
  match w_pc w with
  | AtOpen | AtClose _ => inst_ok key n bs (w_store w)
  | AtLock => inst_ok key n bs (w_store w) /\ w_off w = 0
  | AtSize => inst_ok key n bs (w_store w) /\ w_off w = 0 /\ file = bs
  | AtRefresh sz =>
      inst_ok key n bs (w_store w) /\ w_off w = 0 /\ file = bs
      /\ sz = blen bs
  | AtWriteKey ti =>
      inst_ok key (S n) bs' (w_store w) /\ w_off w = blen bs /\ file = bs
      /\ ti = Z.of_nat (S n)
  | AtWriteValue ti =>
      inst_ok key (S n) bs' (w_store w)
      /\ w_off w = blen (bs ++ encode_str key)
      /\ file = bs ++ encode_str key /\ ti = Z.of_nat (S n)
  | AtUnlock _ => inst_ok key n bs (w_store w) /\ file = bs
  end
  /\ (w_pc w <> AtOpen -> (0 < w_todo w)%nat).

(** The threads and the kernel between two steps of a run that makes
    [total] increments in all: the thread inside the lock is the one whose
    descriptor holds it, and with the lock free the file is the log. *)
Definition workers_inv (key : string) (total : nat) (ws : list Worker)
    (k : Kernel) : Prop :=
  exists n bs,
    (forall j w, ws !! j = Some w ->
       worker_ok key n bs (default [] (k_file k)) w
       /\ (critical (w_pc w) = true <-> k_lock k = ExclusiveBy (Z.of_nat j)))
    /\ (k_lock k = Free /\ default [] (k_file k) = bs
        \/ exists j, (j < length ws)%nat /\ k_lock k = ExclusiveBy (Z.of_nat j))
    /\ inst_ok key n bs FileStore_new
    /\ (n + sum_list (calls_left <$> ws) = total)%nat
    /\ blen bs + (counter_growth key total - counter_growth key n) < 2 ^ 31
    /\ (n <> 0%nat -> is_Some (k_file k)).

(** A scheduler that gives the threads one step each in turn, [n] times
    round; thread 1 gets a signal at each of its steps. *)
Definition round_robin (n : nat) : list (nat * bool) :=
  concat (replicate n [(0, false); (1, true); (2, false); (3, false)]%nat).

(** ** The test program *)

(** [Semaphore::post] on the count [n_] (an [int]). *)
Definition Semaphore_post (n : Z) (n_ : Z) : Z := to_int (n_ + n).

(** [Semaphore::wait]: [None] while the caller sleeps on the condition
    variable ([n_ < n]), else the count it leaves. *)
Definition Semaphore_wait (n : Z) (n_ : Z) : option Z :=
  if n_ <? n then None else Some (to_int (n_ - n)).

(** [k] callers of [wait()] served one after the other. *)
Fixpoint Semaphore_waits (k : nat) (n_ : Z) : option Z :=
  match k with
  | O => Some n_
  | S k' =>
      match Semaphore_wait 1 n_ with
      | Some n_' => Semaphore_waits k' n_'
      | None => None
      end
  end.

(** [check(store, key, expected)] of the test. *)
Definition test_check (fuel : nat) (store : FileStore) (fs : option (list byte))
    (key expected : string) : outcome FileStore :=
  let* (actual, store) := get fuel key store fs in
  if String.eqb actual expected then Ret store
  else Throw (runtime_error ("Expected " +:+ expected +:+ ", got " +:+ actual)).

(** [main] of the test, from the path [tmppath] returns, where [mkstemp]
    has left an empty file.  [fuel] bounds the passes of each [get];
    [sched] is the scheduling of the four threads, each with a store of
    its own and a hundred calls of [add] to make.  [main] is still in
    [join] when [sched] ends before the threads do; the value is what
    [main] returns. *)
Definition test_main (fuel : nat) (sched : list (nat * bool)) : outcome Z :=
  let fs := Some [] in
  let store := FileStore_new in
  let* (store, fs) := set "key0" "value0" store fs in
  let* (store, fs) := set "key1" "value1" store fs in
  let* (store, fs) := set "key2" "value2" store fs in
  let* store := test_check fuel store fs "key0" "value0" in
  let* store := test_check fuel store fs "key1" "value1" in
  let* store := test_check fuel store fs "key2" "value2" in
  let* _ := test_check fuel FileStore_new fs "key0" "value0" in
  let* (ws, k) := run_workers "counter" sched
                    (replicate 4 (mkWorker FileStore_new 100 AtOpen 0))
                    (mkKernel fs Free) in
  if joined ws then
    let* _ := test_check fuel FileStore_new (k_file k) "counter"
                (to_string (4 * 100)) in
    Ret 0
  else Spin.

(** * Lemmas on bytes and the length prefix *)

Lemma Z_of_byte_of_Z z : Z_of_byte (byte_of_Z z) = z mod 256.
Proof.
  unfold Z_of_byte, byte_of_Z.
  assert (Hb : 0 <= z mod 256 < 256) by (apply Z.mod_pos_bound; lia).
  destruct (Byte.of_N (Z.to_N (z mod 256))) as [b|] eqn:E; simpl.
  - apply Byte.to_of_N in E. rewrite E. lia.
  - apply Byte.of_N_None_iff in E. lia.
Qed.

Lemma length_le32 n : length (le32 n) = 4%nat.
Proof. reflexivity. Qed.

Lemma le32_val_le32 n : 0 <= n < 2 ^ 32 -> le32_val (le32 n) = n.
Proof.
  intros Hn. unfold le32, le32_val. rewrite !Z_of_byte_of_Z.
  change (2 ^ 8) with 256. change (2 ^ 16) with 65536.
  change (2 ^ 24) with 16777216. change (2 ^ 32) with 4294967296 in Hn.
  Z.div_mod_to_equations. lia.
Qed.

Lemma length_list_byte_of_string s :
  length (String.list_byte_of_string s) = String.length s.
Proof.
  unfold String.list_byte_of_string. rewrite length_map.
  induction s as [|c s IH]; simpl; [reflexivity | now rewrite IH].
Qed.

Lemma to_uint32_short s : short s -> to_uint32 (strlen s) = strlen s.
Proof.
  unfold short, to_uint32, strlen. intros H. apply Z.mod_small. lia.
Qed.

Lemma encode_str_short s :
  short s -> encode_str s = le32 (strlen s) ++ String.list_byte_of_string s.
Proof.
  intros H. unfold encode_str. rewrite (to_uint32_short s H). f_equal.
  apply firstn_all2. rewrite length_list_byte_of_string. unfold strlen. lia.
Qed.

Lemma length_encode_str s : short s -> blen (encode_str s) = 4 + strlen s.
Proof.
  intros H. rewrite (encode_str_short s H). unfold blen.
  rewrite length_app, length_le32, length_list_byte_of_string.
  unfold strlen. lia.
Qed.

(** * Lemmas on [File] *)

Lemma write_at_end bs buf :
  write (mkFile bs (blen bs)) buf = mkFile (bs ++ buf) (blen bs + blen buf).
Proof.
  unfold write, blen; simpl. rewrite Nat2Z.id, Nat.sub_diag. simpl.
  rewrite app_nil_r, firstn_all, skipn_all2 by lia.
  now rewrite app_nil_r.
Qed.

Lemma blen_app (a b : list byte) : blen (a ++ b) = blen a + blen b.
Proof. unfold blen. rewrite length_app. lia. Qed.

Lemma writeString_at_end bs s :
  writeString (mkFile bs (blen bs)) s
  = mkFile (bs ++ encode_str s) (blen (bs ++ encode_str s)).
Proof.
  unfold writeString, encode_str. rewrite write_at_end.
  rewrite <- blen_app, write_at_end, <- blen_app.
  now rewrite <- !app_assoc.
Qed.

Lemma read_exact bs off count pre got rest :
  bs = pre ++ got ++ rest -> off = blen pre -> count = blen got ->
  read (mkFile bs off) count = (got, mkFile bs (off + count)).
Proof.
  intros -> -> ->. unfold read, blen; simpl. rewrite !Nat2Z.id.
  now rewrite drop_app_length, take_app_length.
Qed.

Lemma readString_encoded pre s rest :
  short s ->
  readString (mkFile (pre ++ encode_str s ++ rest) (blen pre))
  = Ret (s, mkFile (pre ++ encode_str s ++ rest) (blen (pre ++ encode_str s))).
Proof.
  intros Hs. rewrite (encode_str_short s Hs). unfold readString.
  rewrite (read_exact _ _ 4 pre (le32 (strlen s))
             (String.list_byte_of_string s ++ rest));
    [| now rewrite <- app_assoc | reflexivity | reflexivity].
  change (blen (le32 (strlen s)) <? 4) with false. cbv iota.
  rewrite le32_val_le32 by (unfold short, strlen in *; lia).
  rewrite (read_exact _ _ (strlen s) (pre ++ le32 (strlen s))
             (String.list_byte_of_string s) rest);
    [| now rewrite <- !app_assoc | now rewrite blen_app
     | unfold blen, strlen; now rewrite length_list_byte_of_string].
  unfold strlen. rewrite Nat2Z.id, length_list_byte_of_string, Nat.sub_diag.
  simpl. rewrite app_nil_r, String.string_of_list_byte_of_string.
  rewrite !blen_app. unfold blen.
  rewrite ?length_le32, ?length_list_byte_of_string.
  do 3 f_equal. cbn [length]. rewrite length_list_byte_of_string. lia.
Qed.


Lemma read_bounds f count got f' :
  0 <= fd_off f -> read f count = (got, f') ->
  fd_bytes f' = fd_bytes f /\ fd_off f' = fd_off f + blen got
  /\ blen got <= Z.max 0 count
  /\ (fd_off f + blen got <= blen (fd_bytes f) \/ blen got = 0).
Proof.
  intros Hoff. unfold read. intros [= <- <-]. simpl.
  split; [reflexivity | split; [reflexivity |]].
  unfold blen. rewrite length_take, length_drop. lia.
Qed.

Lemma readString_bounds f s f' :
  0 <= fd_off f -> readString f = Ret (s, f') ->
  fd_bytes f' = fd_bytes f
  /\ fd_off f + 4 <= fd_off f' <= blen (fd_bytes f).
Proof.
  intros Hoff. unfold readString.
  destruct (read f 4) as [hdr f1] eqn:E1.
  destruct (blen hdr <? 4) eqn:E4; [discriminate |].
  destruct (read f1 (le32_val hdr)) as [got f2] eqn:E2.
  intros [= _ <-]. apply Z.ltb_ge in E4.
  apply read_bounds in E1 as (Hb1 & Ho1 & Hc1 & Hl1); [| assumption].
  apply read_bounds in E2 as (Hb2 & Ho2 & Hc2 & Hl2); [| unfold blen in *; lia].
  rewrite Hb2, Hb1. split; [reflexivity |].
  rewrite Hb1 in Hl2. unfold blen in *. lia.
Qed.

(** [readString] returns or uses an uninitialised [len]; it has no
    other outcome: [SYSCHECK] never throws. *)
Lemma readString_cases f :
  (exists s f', readString f = Ret (s, f')) \/ readString f = Undef.
Proof.
  unfold readString. destruct (read f 4) as [hdr f1].
  destruct (blen hdr <? 4); [now right |].
  destruct (read f1 (le32_val hdr)) as [got f2]. left. eauto.
Qed.

(** [replay] stops within the iterations it is granted. *)
Lemma replay_no_Spin fuel sz f st :
  0 <= fd_off f -> Z.max 0 (blen (fd_bytes f) - fd_off f) < Z.of_nat fuel ->
  replay fuel sz f st <> Spin.
Proof.
  revert f st. induction fuel as [|fuel IH]; intros f st Hoff Hfuel; [lia |].
  simpl. destruct (sz >? pos_ st); [| discriminate].
  destruct (readString_cases f) as [(k & f1 & E1) | E1]; rewrite E1; simpl;
    [| discriminate].
  destruct (readString_bounds _ _ _ Hoff E1) as (Hb1 & Ho1).
  destruct (readString_cases f1) as [(v & f2 & E2) | E2]; rewrite E2; simpl;
    [| discriminate].
  destruct (readString_bounds f1 v f2 ltac:(lia) E2) as (Hb2 & Ho2).
  unfold tell. destruct (fd_off f2 <? 0) eqn:E; [discriminate |]. simpl.
  apply IH; [lia |]. rewrite Hb2, Hb1 in *. lia.
Qed.

(** * Replaying encoded records *)

Lemma to_int_small z : 0 <= z < 2 ^ 31 -> to_int z = z.
Proof.
  intros H. unfold to_int. change (2 ^ 31) with 2147483648 in *.
  change (2 ^ 32) with 4294967296. Z.div_mod_to_equations. lia.
Qed.

Lemma blen_nonneg bs : 0 <= blen bs.
Proof. unfold blen. lia. Qed.

Lemma blen_encode_str_ge s : 4 <= blen (encode_str s).
Proof.
  unfold encode_str. rewrite blen_app. pose proof (blen_nonneg
    (take (Z.to_nat (to_uint32 (strlen s))) (String.list_byte_of_string s))).
  change (blen (le32 (to_uint32 (strlen s)))) with 4. lia.
Qed.

Lemma blen_encode_record_ge r : 8 <= blen (encode_record r).
Proof.
  unfold encode_record. rewrite blen_app.
  pose proof (blen_encode_str_ge (fst r)).
  pose proof (blen_encode_str_ge (snd r)). lia.
Qed.

Lemma encode_log_app rs1 rs2 :
  encode_log (rs1 ++ rs2) = encode_log rs1 ++ encode_log rs2.
Proof.
  induction rs1 as [|r rs1 IH]; simpl; [reflexivity |].
  now rewrite IH, app_assoc.
Qed.

Lemma length_encode_log rs : (length rs <= length (encode_log rs))%nat.
Proof.
  induction rs as [|r rs IH]; simpl; [lia |].
  rewrite length_app. pose proof (blen_encode_record_ge r).
  unfold blen in *. lia.
Qed.

Lemma apply_log_app rs1 rs2 m :
  apply_log (rs1 ++ rs2) m = apply_log rs2 (apply_log rs1 m).
Proof. unfold apply_log. apply foldl_app. Qed.

Lemma short_log_app rs1 rs2 :
  short_log (rs1 ++ rs2) <-> short_log rs1 /\ short_log rs2.
Proof. unfold short_log. apply Forall_app. Qed.

(** One pass of the loop per complete record. *)
Lemma replay_records rs : forall pre rest bs c fuel,
  bs = pre ++ encode_log rs ++ rest ->
  short_log rs -> blen bs < 2 ^ 31 ->
  replay (length rs + fuel) (blen bs) (mkFile bs (blen pre)) (mkStore (blen pre) c)
  = replay fuel (blen bs) (mkFile bs (blen (pre ++ encode_log rs)))
      (mkStore (blen (pre ++ encode_log rs)) (apply_log rs c)).
Proof.
  induction rs as [|[k v] rs IH]; intros pre rest bs c fuel Hbs Hshort Hsz.
  - simpl. now rewrite app_nil_r.
  - apply Forall_cons in Hshort as [[Hk Hv] Hshort]. simpl in Hk, Hv.
    cbn [encode_log] in Hbs. unfold encode_record in Hbs.
    cbn [fst snd] in Hbs.
    pose proof (blen_encode_str_ge k) as Hk4.
    pose proof (blen_encode_str_ge v) as Hv4.
    pose proof (blen_nonneg pre) as Hpre.
    pose proof (blen_nonneg (encode_log rs ++ rest)) as Hrest.
    assert (Hlen : blen bs = blen pre + blen (encode_str k)
              + blen (encode_str v) + blen (encode_log rs ++ rest)).
    { rewrite Hbs, <- !app_assoc, !blen_app. lia. }
    change (length ((k, v) :: rs) + fuel)%nat with (S (length rs + fuel)).
    cbn [replay pos_].
    replace (blen bs >? blen pre) with true by (symmetry; apply Z.gtb_lt; lia).
    assert (Hbs1 : bs = pre ++ encode_str k
                     ++ (encode_str v ++ encode_log rs ++ rest))
      by (rewrite Hbs; now rewrite <- !app_assoc).
    rewrite Hbs1 at 1. rewrite (readString_encoded pre k _ Hk). cbn [bind].
    assert (Hbs2 : pre ++ encode_str k ++ encode_str v ++ encode_log rs ++ rest
                   = (pre ++ encode_str k) ++ encode_str v
                       ++ (encode_log rs ++ rest))
      by now rewrite <- !app_assoc.
    rewrite Hbs2, (readString_encoded (pre ++ encode_str k) v _ Hv). cbn [bind].
    unfold tell. cbn [fd_off].
    replace (blen ((pre ++ encode_str k) ++ encode_str v) <? 0) with false
      by (symmetry; apply Z.ltb_ge; apply blen_nonneg).
    cbn [bind cache_]. rewrite to_int_small
      by (split; [apply blen_nonneg | rewrite !blen_app; lia]).
    rewrite <- Hbs2, <- Hbs1.
    rewrite (IH ((pre ++ encode_str k) ++ encode_str v) rest bs
               (<[k := v]> c) fuel); [| | assumption | assumption].
    + cbn [encode_log]. unfold encode_record, apply_log. cbn [fst snd foldl].
      now rewrite <- !app_assoc.
    + rewrite Hbs. now rewrite <- !app_assoc.
Qed.

Lemma seek_end bs off :
  seek (mkFile bs off) 0 SEEK_END = Ret (blen bs, mkFile bs (blen bs)).
Proof.
  unfold seek. cbn [fd_bytes]. rewrite Z.add_0_r.
  pose proof (blen_nonneg bs). now destruct (Z.ltb_spec (blen bs) 0); [lia |].
Qed.

Lemma seek_set bs off p :
  0 <= p -> seek (mkFile bs off) p SEEK_SET = Ret (p, mkFile bs p).
Proof.
  intros Hp. unfold seek. now destruct (Z.ltb_spec p 0); [lia |].
Qed.

Lemma size_fresh bs : size (mkFile bs 0) = Ret (blen bs, mkFile bs 0).
Proof.
  unfold size, tell. cbn [fd_off Z.ltb Z.compare bind].
  rewrite seek_end. cbn [bind]. now rewrite seek_set by lia.
Qed.

Lemma open_create fs : File_open fs O_RDWR_CREAT = Ret (mkFile (default [] fs) 0).
Proof. now destruct fs. Qed.

(** The refresh of an instance whose cursor is at the start of a run of
    complete records that reaches the end of the file. *)
Lemma replay_synced pre rs bs c :
  bs = pre ++ encode_log rs -> short_log rs -> blen bs < 2 ^ 31 ->
  replay (replay_fuel (mkFile bs (blen pre))) (blen bs)
    (mkFile bs (blen pre)) (mkStore (blen pre) c)
  = Ret (mkFile bs (blen bs), mkStore (blen bs) (apply_log rs c)).
Proof.
  intros Hbs Hshort Hsz. unfold replay_fuel. cbn [fd_bytes].
  assert (Hfuel : S (length bs) = (length rs + (S (length bs) - length rs))%nat).
  { pose proof (length_encode_log rs). rewrite Hbs, length_app. lia. }
  rewrite Hfuel, (replay_records rs pre [] bs c); [| | assumption..].
  - rewrite <- Hbs. destruct (S (length bs) - length rs)%nat; cbn [replay pos_];
      now rewrite Z.gtb_ltb, Z.ltb_irrefl.
  - now rewrite app_nil_r.
Qed.

(** The refresh inside [check] and [add] always comes to an end, on any
    file and from any cursor: only the polling loops of [get] and [wait]
    can go on. *)
Lemma refresh_no_Spin bs p sz st :
  0 <= p ->
  replay (replay_fuel (mkFile bs p)) sz (mkFile bs p) st <> Spin.
Proof.
  intros Hp. apply replay_no_Spin; [exact Hp |].
  unfold replay_fuel, blen. cbn [fd_bytes fd_off]. lia.
Qed.

Lemma check_no_Spin keys st fs : check keys st fs <> Spin.
Proof.
  unfold check. destruct fs as [bs|]; cbn [File_open bind]; [| discriminate].
  rewrite size_fresh. cbn [bind].
  destruct (blen bs =? pos_ st); cbn [bind]; [discriminate |].
  unfold seek. destruct (Z.ltb_spec (pos_ st) 0); cbn [bind]; [discriminate |].
  pose proof (refresh_no_Spin bs (pos_ st) (blen bs) st ltac:(lia)) as Hre.
  destruct (replay _ _ _ _) as [[f' st']| | |]; cbn [bind];
    congruence || discriminate.
Qed.

Lemma add_no_Spin key i st fs : add key i st fs <> Spin.
Proof.
  unfold add. rewrite open_create. cbn [bind]. rewrite size_fresh. cbn [bind].
  destruct (blen (default [] fs) >? pos_ st); cbn [bind].
  - unfold seek. destruct (Z.ltb_spec (pos_ st) 0); cbn [bind]; [discriminate |].
    pose proof (refresh_no_Spin (default [] fs) (pos_ st)
                  (blen (default [] fs)) st ltac:(lia)) as Hre.
    destruct (replay _ _ _ _) as [[f' st']| | |]; cbn [bind];
      try (congruence || discriminate).
    destruct (in_int64 _); discriminate.
  - destruct (in_int64 _); discriminate.
Qed.

(** * The methods on a well-formed log *)

Lemma set_appends name data st fs :
  set name data st fs
  = Ret (st, Some (default [] fs ++ encode_str name ++ encode_str data)).
Proof.
  unfold set. rewrite open_create. cbn [bind]. rewrite seek_end. cbn [bind].
  rewrite !writeString_at_end. cbn [fd_bytes]. now rewrite <- app_assoc.
Qed.

Lemma encode_log_nil_inv rs : encode_log rs = [] -> rs = [].
Proof.
  destruct rs as [|r rs]; [reflexivity |]. cbn [encode_log]. intros H.
  pose proof (blen_encode_record_ge r) as Hr.
  apply (f_equal blen) in H. rewrite blen_app in H.
  pose proof (blen_nonneg (encode_log rs)). change (blen []) with 0 in H. lia.
Qed.

Lemma synced_size_cases st bs pre rs :
  synced st bs pre rs ->
  (rs = [] /\ blen bs = pos_ st) \/ (rs <> [] /\ pos_ st < blen bs).
Proof.
  intros (Hbs & Hpos & _ & _). destruct rs as [|r rs].
  - left. split; [reflexivity |]. rewrite Hbs, Hpos. simpl. now rewrite app_nil_r.
  - right. split; [discriminate |]. rewrite Hbs, Hpos, blen_app.
    cbn [encode_log]. rewrite blen_app. pose proof (blen_encode_record_ge r).
    pose proof (blen_nonneg (encode_log rs)). lia.
Qed.

Lemma get_synced fuel world i key st bs pre rs v :
  world i = Some bs -> synced st bs pre rs ->
  cache_ st !! key = None -> apply_log rs (cache_ st) !! key = Some v ->
  get_loop (S fuel) world i key st
  = Ret (v, mkStore (blen bs) (apply_log rs (cache_ st))).
Proof.
  intros Hw Hsync Hnone Hsome.
  destruct (synced_size_cases _ _ _ _ Hsync) as [[-> _] | [Hrs Hlt]].
  { simpl in Hsome. congruence. }
  destruct Hsync as (Hbs & Hpos & Hshort & Hsz). destruct st as [p c].
  cbn [pos_ cache_] in *. subst p.
  cbn [get_loop cache_ pos_]. rewrite Hnone, Hw. cbn [File_open bind].
  rewrite size_fresh. cbn [bind].
  destruct (Z.eqb_spec (blen bs) (blen pre)) as [E | _]; [lia |].
  rewrite seek_set by apply blen_nonneg. cbn [bind].
  rewrite (replay_synced pre rs bs c Hbs Hshort Hsz). cbn [bind].
  destruct fuel; cbn [get_loop cache_]; now rewrite Hsome.
Qed.

Lemma check_synced keys st bs pre rs :
  synced st bs pre rs ->
  check keys st (Some bs)
  = Ret (forallb (fun key => bool_decide (is_Some (apply_log rs (cache_ st) !! key))) keys,
         mkStore (blen bs) (apply_log rs (cache_ st))).
Proof.
  intros Hsync. unfold check. cbn [File_open bind]. rewrite size_fresh. cbn [bind].
  destruct (synced_size_cases _ _ _ _ Hsync) as [[-> Heq] | [Hrs Hlt]].
  - rewrite Heq, Z.eqb_refl. cbn [bind]. destruct st as [p c]. simpl in *.
    now subst p.
  - destruct Hsync as (Hbs & Hpos & Hshort & Hsz). destruct st as [p c].
    cbn [pos_ cache_] in *. subst p.
    destruct (Z.eqb_spec (blen bs) (blen pre)) as [E | _]; [lia |].
    rewrite seek_set by apply blen_nonneg. cbn [bind].
    now rewrite (replay_synced pre rs bs c Hbs Hshort Hsz).
Qed.

(** [add] when its write lands at the end of the file: the cursor is
    behind the end, or the file is empty. *)
Lemma add_synced key i st fs bs pre rs :
  default [] fs = bs -> synced st bs pre rs -> rs <> [] \/ bs = [] ->
  let c := apply_log rs (cache_ st) in
  let cached := default EmptyString (c !! key) in
  let ti := extract_int64 cached + i in
  in_int64 ti = true ->
  add key i st fs
  = Ret (ti, mkStore (blen bs) (<[key := cached]> c),
         Some (bs ++ encode_str key ++ encode_str (to_string ti))).
Proof.
  intros Hfs Hsync Hcase c cached ti Hti. unfold add.
  rewrite open_create, Hfs. cbn [bind]. rewrite size_fresh. cbn [bind].
  destruct (synced_size_cases _ _ _ _ Hsync) as [[-> Heq] | [Hrs Hlt]].
  - destruct Hcase as [? | ->]; [congruence |].
    rewrite <- Heq. change (blen [] >? blen []) with false. cbn [bind].
    fold c. subst c. cbn [apply_log foldl] in *. fold cached. fold ti.
    rewrite Hti. change 0 with (blen []) at 1.
    rewrite !writeString_at_end. cbn [fd_bytes].
    rewrite <- Heq. now rewrite <- app_assoc.
  - destruct Hsync as (Hbs & Hpos & Hshort & Hsz). destruct st as [p c0].
    cbn [pos_ cache_] in *. subst p.
    replace (blen bs >? blen pre) with true by (symmetry; apply Z.gtb_lt; lia).
    rewrite seek_set by apply blen_nonneg. cbn [bind].
    rewrite (replay_synced pre rs bs c0 Hbs Hshort Hsz). cbn [bind pos_ cache_].
    fold c. fold cached. fold ti. rewrite Hti.
    rewrite !writeString_at_end. cbn [fd_bytes]. now rewrite <- app_assoc.
Qed.

Lemma apply_log_keeps rs : forall m k,
  is_Some (m !! k) -> is_Some (apply_log rs m !! k).
Proof.
  induction rs as [|r rs IH]; intros m k Hk; [exact Hk |].
  unfold apply_log. cbn [foldl]. apply IH. apply lookup_insert_is_Some.
  destruct (decide (fst r = k)); auto.
Qed.

Lemma apply_log_other rs : forall m k,
  k ∉ map fst rs -> apply_log rs m !! k = m !! k.
Proof.
  induction rs as [|r rs IH]; intros m k Hk; [reflexivity |].
  unfold apply_log. cbn [foldl]. cbn [map] in Hk.
  apply not_elem_of_cons in Hk as [Hne Hk].
  fold (apply_log rs (<[fst r := snd r]> m)). rewrite (IH _ _ Hk).
  apply lookup_insert_ne. congruence.
Qed.

(** A key the cache holds is answered from the cache: the loop of [get]
    is not entered and the file is not opened. *)
Lemma get_cached_hit fuel world i key st v :
  cache_ st !! key = Some v -> get_loop fuel world i key st = Ret (v, st).
Proof. intros H. destruct fuel; cbn [get_loop]; now rewrite H. Qed.

(** Successive [set] calls append their records in call order. *)
Lemma run_sets_appends rs : forall st bs,
  run_sets rs st (Some bs) = Ret (st, Some (bs ++ encode_log rs)).
Proof.
  induction rs as [|r rs IH]; intros st bs.
  - cbn [run_sets encode_log]. now rewrite app_nil_r.
  - cbn [run_sets]. rewrite set_appends. cbn [bind default from_option id].
    rewrite IH. cbn [encode_log]. unfold encode_record.
    now rewrite <- !app_assoc.
Qed.

(** * Properties of the store *)

(** C8: [set] returns the instance as it found it, cache and cursor
    included; its only effect is on the shared file, which gains the
    encoded record (name, data) after its last byte (the file is created
    empty first when the path has none). *)
Theorem set_frame name data st fs :
  set name data st fs
  = Ret (st, Some (default [] fs ++ encode_record (name, data))).
Proof. apply set_appends. Qed.

(** C10: with no file at the path, [get] of a key the cache does not hold
    and [check] of any keys end at their first [open] with
    [std::system_error] [ENOENT]; [set] and [add] return normally and leave
    a file behind. *)
Theorem missing_file (st : FileStore) (key : string) (fuel : nat)
    (world : nat -> option (list byte)) (i : nat) :
  world i = None -> cache_ st !! key = None ->
  get_loop (S fuel) world i key st = Throw (system_error ENOENT)
  /\ (forall keys, check keys st None = Throw (system_error ENOENT))
  /\ (forall name data, exists bs, set name data st None = Ret (st, Some bs))
  /\ (forall k d, 0 <= pos_ st ->
        in_int64 (extract_int64 (default EmptyString (cache_ st !! k)) + d) = true ->
        exists r st' bs, add k d st None = Ret (r, st', Some bs)).
Proof.
  intros Hw Hkey. split; [| split; [| split]].
  - cbn [get_loop]. now rewrite Hkey, Hw.
  - reflexivity.
  - intros name data. rewrite set_appends. eauto.
  - intros k d Hpos Hin. unfold add. rewrite open_create. cbn [bind default].
    rewrite size_fresh. cbn [bind]. change (blen []) with 0.
    destruct (Z.gtb_spec 0 (pos_ st)) as [? | _]; [lia |]. cbn [bind].
    rewrite Hin. eauto.
Qed.

Lemma missing_file_witness :
  (fun _ : nat => @None (list byte)) 0%nat = None
  /\ cache_ FileStore_new !! "k"%string = None
  /\ get_loop 1 (fun _ => None) 0 "k" FileStore_new = Throw (system_error ENOENT).
Proof.
  split; [reflexivity | split; [reflexivity |]].
  apply (missing_file FileStore_new "k" 0 (fun _ => None) 0); reflexivity.
Defined.

(** C5 fails when the instance already holds the key: A sets k to v1,
    reads it, sets k to v2 and reads v1 again. *)
Lemma roundtrip_stale :
  (let* (a, fs) := set "k" "v1" FileStore_new None in
   let* (r1, a) := get 3 "k" a fs in
   let* (a, fs) := set "k" "v2" a fs in
   let* (r2, a) := get 3 "k" a fs in
   Ret (r1, r2)) = Ret ("v1"%string, "v1"%string).
Proof. vm_compute. reflexivity. Qed.

(** C5, amended: when the cache of A does not hold k, the cursor of A is
    at the start of complete records that reach the end of the log, and
    the log with the new record is shorter than 2^31 bytes, then after
    [set k v] on A the next [get k] on A returns v. *)
Theorem set_then_get k v st fs bs pre rs fuel :
  default [] fs = bs -> bs = pre ++ encode_log rs -> pos_ st = blen pre ->
  short_log rs -> short k -> short v ->
  blen (bs ++ encode_record (k, v)) < 2 ^ 31 ->
  cache_ st !! k = None ->
  exists fs' st',
    set k v st fs = Ret (st, fs') /\ get (S fuel) k st fs' = Ret (v, st').
Proof.
  intros Hfs Hbs Hpos Hshort Hk Hv Hsz Hnone.
  rewrite set_appends, Hfs. do 2 eexists. split; [reflexivity |].
  unfold get. eapply (get_synced fuel _ 0%nat k st _ pre (rs ++ [(k, v)]));
    [reflexivity | | assumption |].
  - split; [| split; [assumption | split; [| assumption]]].
    + rewrite encode_log_app, Hbs, <- app_assoc. cbn [encode_log].
      now rewrite app_nil_r.
    + apply short_log_app. split; [assumption |]. now repeat constructor.
  - rewrite apply_log_app. cbn [apply_log foldl fst snd].
    apply lookup_insert_eq.
Qed.

Lemma set_then_get_witness :
  default [] None = @nil byte /\ @nil byte = [] ++ encode_log []
  /\ exists fs' st',
       set "k" "v" FileStore_new None = Ret (FileStore_new, fs')
       /\ get 1 "k" FileStore_new fs' = Ret ("v"%string, st').
Proof.
  split; [reflexivity | split; [reflexivity |]].
  apply (set_then_get "k" "v" FileStore_new None [] [] [] 0);
    [reflexivity | reflexivity | reflexivity | constructor
    | vm_compute; reflexivity | vm_compute; reflexivity
    | vm_compute; reflexivity | reflexivity].
Defined.

(** C6 fails for a reader that saw the first value: A sets k to v1, B
    reads it, A sets k to v2, and B still reads v1. *)
Lemma last_write_unseen :
  (let* (a, fs) := set "k" "v1" FileStore_new None in
   let* (_, b) := get 3 "k" FileStore_new fs in
   let* (a, fs) := set "k" "v2" a fs in
   let* (r, b) := get 3 "k" b fs in
   Ret r) = Ret "v1"%string.
Proof. vm_compute. reflexivity. Qed.

(** C6, amended: [set k v1], then [set k v2], by any instances, with
    any [set] calls [ws1] between the two and [set] calls [ws2] of other
    keys after them.  An instance whose cache does not hold k, and whose
    cursor is at the start of complete records [rs] reaching the end of
    the log as the second write found it, reads v2 with [get k] (log below
    2^31 bytes, k and v2 shorter than 2^32); the [get k] it repeats
    returns v2 again without opening the file.  An instance whose cache
    holds k is answered from its cache, whatever the log has become. *)
Theorem last_write_wins k v1 v2 sA sB sC sD ws1 ws2 st fs pre rs fuel :
  default [] fs ++ encode_log ((k, v1) :: ws1) = pre ++ encode_log rs ->
  pos_ st = blen pre -> short_log rs -> short k -> short v2 ->
  short_log ws2 -> k ∉ map fst ws2 ->
  blen (pre ++ encode_log (rs ++ (k, v2) :: ws2)) < 2 ^ 31 ->
  cache_ st !! k = None ->
  exists fs1 fs2 fs3 fs4 st',
    set k v1 sA fs = Ret (sA, fs1) /\ run_sets ws1 sC fs1 = Ret (sC, fs2)
    /\ set k v2 sB fs2 = Ret (sB, fs3) /\ run_sets ws2 sD fs3 = Ret (sD, fs4)
    /\ get (S fuel) k st fs4 = Ret (v2, st')
    /\ (forall fuel' world i, get_loop fuel' world i k st' = Ret (v2, st'))
    /\ (forall s v fuel' world i,
          cache_ s !! k = Some v -> get_loop fuel' world i k s = Ret (v, s)).
Proof.
  intros Hlog Hpos Hshort Hk Hv2 Hws2 Hother Hsz Hnone.
  rewrite set_appends. do 5 eexists. split; [reflexivity |].
  rewrite run_sets_appends. split; [reflexivity |].
  rewrite set_appends. cbn [default from_option id]. split; [reflexivity |].
  rewrite run_sets_appends. split; [reflexivity |].
  assert (Hlast : apply_log (rs ++ (k, v2) :: ws2) (cache_ st) !! k = Some v2).
  { rewrite apply_log_app. unfold apply_log at 1. cbn [foldl fst snd].
    fold (apply_log ws2 (<[k := v2]> (apply_log rs (cache_ st)))).
    rewrite (apply_log_other ws2 _ k Hother). apply lookup_insert_eq. }
  assert (Hbytes : (((default [] fs ++ encode_str k ++ encode_str v1)
                       ++ encode_log ws1) ++ encode_str k ++ encode_str v2)
                     ++ encode_log ws2
                   = pre ++ encode_log (rs ++ (k, v2) :: ws2)).
  { rewrite encode_log_app, (app_assoc pre), <- Hlog. cbn [encode_log].
    unfold encode_record. cbn [fst snd]. now rewrite <- !app_assoc. }
  rewrite Hbytes. split; [| split].
  - unfold get.
    eapply (get_synced fuel _ 0%nat k st _ pre (rs ++ (k, v2) :: ws2));
      [reflexivity | | assumption | exact Hlast].
    split; [reflexivity | split; [assumption | split; [| assumption]]].
    apply short_log_app. split; [assumption |].
    constructor; [split; assumption | assumption].
  - intros fuel' world i. now apply get_cached_hit.
  - intros s v fuel' world i. apply get_cached_hit.
Qed.

Lemma last_write_wins_witness :
  let rs := [("k", "v1"); ("a", "1")]%string in
  default [] None ++ encode_log (("k", "v1") :: [("a", "1")])%string
  = [] ++ encode_log rs
  /\ ("k"%string ∉ map fst [("b", "2")%string])
  /\ cache_ FileStore_new !! "k"%string = None
  /\ exists fs1 fs2 fs3 fs4 st',
       set "k" "v1" FileStore_new None = Ret (FileStore_new, fs1)
       /\ run_sets [("a", "1")%string] FileStore_new fs1 = Ret (FileStore_new, fs2)
       /\ set "k" "v2" FileStore_new fs2 = Ret (FileStore_new, fs3)
       /\ run_sets [("b", "2")%string] FileStore_new fs3 = Ret (FileStore_new, fs4)
       /\ get 1 "k" FileStore_new fs4 = Ret ("v2"%string, st')
       /\ (forall fuel' world i,
             get_loop fuel' world i "k" st' = Ret ("v2"%string, st'))
       /\ (forall s v fuel' world i,
             cache_ s !! "k"%string = Some v ->
             get_loop fuel' world i "k" s = Ret (v, s)).
Proof.
  intros rs.
  assert (Hother : "k"%string ∉ map fst [("b", "2")%string]).
  { cbn [map fst]. apply not_elem_of_cons. split; [discriminate |].
    apply not_elem_of_nil. }
  split; [reflexivity | split; [exact Hother | split; [reflexivity |]]].
  apply (last_write_wins "k" "v1" "v2" FileStore_new FileStore_new
           FileStore_new FileStore_new [("a", "1")%string] [("b", "2")%string]
           FileStore_new None [] rs 0);
    [ reflexivity | reflexivity
    | repeat constructor; vm_compute; reflexivity
    | vm_compute; reflexivity | vm_compute; reflexivity
    | repeat constructor; vm_compute; reflexivity
    | exact Hother | vm_compute; reflexivity | reflexivity ].
Defined.

(** The state [add] leaves, wherever its write lands. *)
Lemma add_state key i st fs bs pre rs :
  default [] fs = bs -> synced st bs pre rs ->
  let c := apply_log rs (cache_ st) in
  let cached := default EmptyString (c !! key) in
  let ti := extract_int64 cached + i in
  in_int64 ti = true ->
  exists bs',
    add key i st fs = Ret (ti, mkStore (blen bs) (<[key := cached]> c), Some bs').
Proof.
  intros Hfs Hsync c cached ti Hti.
  destruct (synced_size_cases _ _ _ _ Hsync) as [[-> Heq] | [Hrs Hlt]].
  - unfold add. rewrite open_create, Hfs. cbn [bind]. rewrite size_fresh.
    cbn [bind]. rewrite Heq, Z.gtb_ltb, Z.ltb_irrefl. cbn [bind].
    subst c. cbn [apply_log foldl] in *. fold cached. fold ti. rewrite Hti.
    eauto.
  - eexists. apply (add_synced key i st fs bs pre rs); auto.
Qed.

(** C9 fails when the key is absent from the cache at the call but
    present in the part of the log that [add] replays: the entry is then
    the replayed value "5", not the empty string, and [get] returns it
    (while [add] returned 6). *)
Lemma add_caches_replayed_value :
  (let* (r, b, fs) := add "k" 1 FileStore_new (Some (encode_log [("k", "5")%string])) in
   let* (v, _) := get 0 "k" b fs in
   Ret (cache_ FileStore_new !! "k"%string, r, cache_ b !! "k"%string, v))
  = Ret (None, 6, Some "5"%string, "5"%string).
Proof. vm_compute. reflexivity. Qed.

(** C9, amended: when the key is still absent from the cache after [add]
    has replayed the unread records (cursor at the start of complete
    records reaching the end of a log shorter than 2^31 bytes), [add]
    returns 0 + i, leaves the key mapped to the empty string and the
    cursor at the end the log had before the write; [get] of that key then
    returns the empty string at once, whatever the file holds, without
    opening it. *)
Theorem add_leaves_empty_entry key i st fs bs pre rs fuel world j :
  default [] fs = bs -> synced st bs pre rs ->
  apply_log rs (cache_ st) !! key = None ->
  in_int64 i = true ->
  exists st' fs',
    add key i st fs = Ret (i, st', fs')
    /\ cache_ st' !! key = Some EmptyString
    /\ pos_ st' = blen bs
    /\ get_loop fuel world j key st' = Ret (EmptyString, st').
Proof.
  intros Hfs Hsync Hnone Hi.
  destruct (add_state key i st fs bs pre rs Hfs Hsync) as [bs' Hadd].
  { rewrite Hnone. exact Hi. }
  rewrite Hnone in Hadd. cbn [default] in Hadd.
  change (extract_int64 EmptyString + i) with i in Hadd.
  do 2 eexists. split; [exact Hadd |]. cbn [cache_ pos_].
  split; [apply lookup_insert_eq | split; [reflexivity |]].
  destruct fuel; cbn [get_loop cache_]; now rewrite lookup_insert_eq.
Qed.

Lemma add_leaves_empty_entry_witness :
  default [] None = @nil byte /\ synced FileStore_new [] [] []
  /\ exists st' fs',
       add "k" 1 FileStore_new None = Ret (1, st', fs')
       /\ cache_ st' !! "k"%string = Some EmptyString
       /\ pos_ st' = blen []
       /\ get_loop 0 (fun _ => None) 0 "k" st' = Ret (EmptyString, st').
Proof.
  assert (Hs : synced FileStore_new [] [] []).
  { split; [reflexivity | split; [reflexivity | split]];
      [constructor | vm_compute; reflexivity]. }
  split; [reflexivity | split; [exact Hs |]].
  apply (add_leaves_empty_entry "k" 1 FileStore_new None [] [] [] 0
           (fun _ => None) 0%nat); [reflexivity | exact Hs | reflexivity..].
Defined.

(** C3: [add] run by an instance whose cursor has reached the end of a
    non-empty log.  The instance sets x and y, sees both with [check]
    (cursor at the end, 20), and adds 1 to y: [add] returns 3, but the
    record (y, 3) is written at offset 0 over the record of x instead of
    after the last record, and a fresh instance reads y as 2. *)
Theorem add_overwrites_first_record :
  (let* (a, fs) := set "x" "1" FileStore_new None in
   let* (a, fs) := set "y" "2" a fs in
   let* (ok, a) := check ["x"; "y"]%string a fs in
   let* (r, fs') := add "y" 1 a fs in
   let* (v, _) := get 1 "y" FileStore_new fs' in
   Ret (fs, ok, pos_ a, fst r, fs', v))
  = Ret (Some (encode_log [("x", "1"); ("y", "2")]%string), true, 20, 3,
         Some (encode_log [("y", "3"); ("y", "2")]%string), "2"%string).
Proof. vm_compute. reflexivity. Qed.

(** The misplaced write also loses increments: two instances that have
    both read a 16-byte log to its end each add 1 to a new counter; each
    write replaces the first 16 bytes, both calls return 1 and the counter
    reads 1. *)
Example adds_at_end_of_log_collide :
  (let fs := Some (encode_log [("abcdefg", "0")%string]) in
   let* (_, a) := check ["abcdefg"%string] FileStore_new fs in
   let* (_, b) := check ["abcdefg"%string] FileStore_new fs in
   let* (ra, fs) := add "counter" 1 a fs in
   let* (rb, fs) := add "counter" 1 b fs in
   let* (v, _) := get 1 "counter" FileStore_new fs in
   Ret (fst ra, fst rb, fs, v))
  = Ret (1, 1, Some (encode_log [("counter", "1")%string]), "1"%string).
Proof. vm_compute. reflexivity. Qed.

(** C4: increments are lost between instances that have read the log to
    its end.  The log holds one 16-byte record, (workers, 2); the two
    workers each read it with [get] (cursor 16, the size of the file) and
    then call [add counter 1] twice each, one whole call after the other,
    which is all an exclusive lock can grant.  Every call finds
    [size == pos_], skips the refresh and writes its 16-byte record at
    offset 0: each of the four calls returns 1, and under each of the six
    orders of the calls the log ends as the single record (counter, 1),
    which a fresh instance reads as "1" where 2 * 2 = 4 increments were
    made. *)
Theorem caught_up_adds_lose_increments :
  (let* (_, fs) := set "workers" "2" FileStore_new None in
   let* (_, a) := get 1 "workers" FileStore_new fs in
   let* (_, b) := get 1 "workers" FileStore_new fs in
   let* (r1, fs1) := add "counter" 1 a fs in
   let* (r2, fs2) := add "counter" 1 b fs1 in
   let* (r3, fs3) := add "counter" 1 (snd r1) fs2 in
   let* (r4, fs4) := add "counter" 1 (snd r2) fs3 in
   Ret (fs, pos_ a, pos_ b, [fst r1; fst r2; fst r3; fst r4], fs4))
  = Ret (Some (encode_log [("workers", "2")%string]), 16, 16, [1; 1; 1; 1],
         Some (encode_log [("counter", "1")%string]))
  /\ Forall (fun sched =>
        (let* (_, fs) := set "workers" "2" FileStore_new None in
         let* (_, a) := get 1 "workers" FileStore_new fs in
         let* (_, b) := get 1 "workers" FileStore_new fs in
         let* (_, fs') := run_adds "counter" sched [a; b] fs in
         let* (v, _) := get 1 "counter" FileStore_new fs' in
         Ret (fs', v))
        = Ret (Some (encode_log [("counter", "1")%string]), "1"%string))
       [[0; 0; 1; 1]; [0; 1; 0; 1]; [0; 1; 1; 0];
        [1; 0; 0; 1]; [1; 0; 1; 0]; [1; 1; 0; 0]]%nat.
Proof.
  split; [vm_compute; reflexivity |].
  repeat constructor; vm_compute; reflexivity.
Qed.

(** C7: the same write at offset 0 leaves a cursor that is on no record
    boundary.  After [set a b] and [get a] the cursor is 10, the end of
    the log; [add counter 1] then replaces the log by the 16 bytes of the
    record (counter, 1), whose boundaries are 0 and 16, and the cursor
    stays 10. *)
Theorem cursor_off_boundary_after_add :
  (let* (a, fs) := set "a" "b" FileStore_new None in
   let* (_, a) := get 1 "a" a fs in
   let* (r, fs') := add "counter" 1 a fs in
   Ret (fs, pos_ a, pos_ (snd r), fs', record_boundaries (default [] fs')))
  = Ret (Some (encode_log [("a", "b")%string]), 10, 10,
         Some (encode_log [("counter", "1")%string]), [0; 16]).
Proof. vm_compute. reflexivity. Qed.

(** * A log cut inside a value *)






(** * The deadline of [wait] *)

(** With a finite timeout the value of [kNoTimeout] plays no part. *)
Lemma wait_loop_finite fuel k k' clock world names timeout start :
  timeout <> k -> timeout <> k' ->
  forall i st,
    wait_loop fuel k clock world i names timeout start st
    = wait_loop fuel k' clock world i names timeout start st.
Proof.
  intros Hk Hk'. induction fuel as [|fuel IH]; intros i st; [reflexivity |].
  cbn [wait_loop]. destruct (check names st (world i)) as [[ok st']| | |];
    cbn [bind]; try reflexivity.
  destruct ok; [reflexivity |].
  destruct (Z.eqb_spec timeout k) as [? | _]; [contradiction |].
  destruct (Z.eqb_spec timeout k') as [? | _]; [contradiction |].
  now rewrite IH.
Qed.

(** The exceptions of [check] are those of [open] and [lseek]. *)
Lemma replay_throws fuel : forall sz f st e,
  replay fuel sz f st = Throw e -> exists n, e = system_error n.
Proof.
  induction fuel as [|fuel IH]; intros sz f st e; cbn [replay];
    destruct (sz >? pos_ st); try discriminate.
  destruct (readString_cases f) as [(k & f1 & E1) | E1]; rewrite E1;
    cbn [bind]; [| discriminate].
  destruct (readString_cases f1) as [(v & f2 & E2) | E2]; rewrite E2;
    cbn [bind]; [| discriminate].
  unfold tell. destruct (fd_off f2 <? 0); cbn [bind].
  - intros [= <-]. eauto.
  - apply IH.
Qed.

Lemma check_throws keys st fs e :
  check keys st fs = Throw e -> exists n, e = system_error n.
Proof.
  unfold check. destruct fs as [bs|]; cbn [File_open bind];
    [| intros [= <-]; eauto].
  rewrite size_fresh. cbn [bind].
  destruct (blen bs =? pos_ st); cbn [bind]; [discriminate |].
  unfold seek. destruct (pos_ st <? 0); cbn [bind]; [intros [= <-]; eauto |].
  destruct (replay _ _ _ _) as [[f' st']| e' | |] eqn:E; cbn [bind];
    try discriminate.
  intros [= <-]. eapply replay_throws. exact E.
Qed.

(** [wait] does not give up before the timeout has passed: when it
    throws "Wait timeout", a reading of the clock lies more than [timeout]
    milliseconds after [start]. *)
Lemma wait_not_early fuel k clock world names timeout start msg :
  0 <= timeout ->
  forall i st,
    wait_loop fuel k clock world i names timeout start st
    = Throw (runtime_error msg) ->
    exists n, timeout * 1000000 < clock n - start.
Proof.
  intros Ht. induction fuel as [|fuel IH]; intros i st; [discriminate |].
  cbn [wait_loop].
  destruct (check names st (world i)) as [[ok st']| e | |] eqn:E;
    cbn [bind]; try discriminate.
  - destruct ok; [discriminate |].
    destruct (negb (timeout =? k)
              && (duration_cast_seconds (clock (S i) - start) * 1000 >? timeout))
      eqn:Hcond; [| apply IH].
    intros _. exists (S i). apply andb_prop in Hcond as [_ Hgt].
    apply Z.gtb_lt in Hgt. unfold duration_cast_seconds in Hgt.
    destruct (Z.lt_ge_cases (clock (S i) - start) 0) as [Hneg | Hpos].
    + pose proof (Z.quot_opp_l (start - clock (S i)) 1000000000 ltac:(lia)) as Hq.
      replace (- (start - clock (S i))) with (clock (S i) - start) in Hq by lia.
      pose proof (Z.quot_pos (start - clock (S i)) 1000000000
                    ltac:(lia) ltac:(lia)). lia.
    + rewrite Z.quot_div_nonneg in Hgt by lia.
      pose proof (Z.mul_div_le (clock (S i) - start) 1000000000 ltac:(lia)). lia.
  - intros [= ->]. apply check_throws in E as [n Hn]. discriminate.
Qed.

(** C1: [wait] with a timeout of 100 ms on a key that is never set, the
    file being there and empty, polled every 10 ms.  After 99 failed polls
    (990 ms on the clock) [wait] is still polling; it throws "Wait timeout"
    at the 100th, one second after its start: the elapsed time is cut down
    to whole seconds before it is compared with the timeout. *)
Theorem wait_100ms_takes_a_second kNoTimeout :
  kNoTimeout <> 100 ->
  wait 99 kNoTimeout clock_10ms (fun _ => Some []) ["missing"%string] 100
    FileStore_new = Spin
  /\ wait 100 kNoTimeout clock_10ms (fun _ => Some []) ["missing"%string] 100
       FileStore_new = Throw (runtime_error "Wait timeout").
Proof.
  intros Hk. unfold wait.
  rewrite !(wait_loop_finite _ kNoTimeout 0) by (congruence || discriminate).
  split; vm_compute; reflexivity.
Qed.

Lemma wait_100ms_takes_a_second_witness :
  0 <> 100
  /\ wait 99 0 clock_10ms (fun _ => Some []) ["missing"%string] 100
       FileStore_new = Spin
  /\ wait 100 0 clock_10ms (fun _ => Some []) ["missing"%string] 100
       FileStore_new = Throw (runtime_error "Wait timeout").
Proof.
  split; [discriminate | apply (wait_100ms_takes_a_second 0); discriminate].
Defined.

(** * Decimal text of the counter *)

Lemma digit_cases d :
  0 <= d < 10 ->
  d = 0 \/ d = 1 \/ d = 2 \/ d = 3 \/ d = 4 \/ d = 5 \/ d = 6 \/ d = 7
  \/ d = 8 \/ d = 9.
Proof. lia. Qed.

(** Settle a goal about a decimal digit [d] on each of its ten values. *)
Ltac each_digit d H :=
  destruct (digit_cases d H) as [-> | [-> | [-> | [-> | [-> | [-> |
    [-> | [-> | [-> | ->]]]]]]]]]; reflexivity.

Lemma digit_of_digit_char d : 0 <= d < 10 -> digit_of (digit_char d) = Some d.
Proof. intros H. each_digit d H. Qed.

Lemma digits_read fuel : forall n rest a seen,
  0 <= n < 10 ^ Z.of_nat fuel -> (0 < fuel)%nat ->
  exists k, 0 <= k
    /\ read_digits (digits fuel n rest) a seen
       = read_digits rest (a * 10 ^ k + n) true.
Proof.
  induction fuel as [|fuel IH]; intros n rest a seen Hn Hfuel; [lia |].
  cbn [digits].
  assert (Hmod : 0 <= n mod 10 < 10) by (apply Z.mod_pos_bound; lia).
  destruct (Z.ltb_spec n 10) as [Hlt | Hge].
  - exists 1. split; [lia |]. cbn [read_digits].
    rewrite digit_of_digit_char by assumption.
    rewrite Z.mod_small by lia. f_equal. lia.
  - assert (Hf : (0 < fuel)%nat).
    { destruct fuel; [| lia]. change (10 ^ Z.of_nat 1) with 10 in Hn. lia. }
    rewrite Nat2Z.inj_succ, Z.pow_succ_r in Hn by lia.
    destruct (IH (n / 10) (String (digit_char (n mod 10)) rest) a seen)
      as (k & Hk & Hrd); [| assumption |].
    { split; [apply Z.div_pos; lia | apply Z.div_lt_upper_bound; lia]. }
    exists (k + 1). split; [lia |]. rewrite Hrd. cbn [read_digits].
    rewrite digit_of_digit_char by assumption. f_equal.
    rewrite Z.pow_add_r, Z.pow_1_r by lia.
    pose proof (Z.div_mod n 10 ltac:(lia)). lia.
Qed.

Lemma digits_head fuel : forall n rest,
  (0 < fuel)%nat -> 0 <= n ->
  exists d s, 0 <= d < 10 /\ digits fuel n rest = String (digit_char d) s.
Proof.
  induction fuel as [|fuel IH]; intros n rest Hfuel Hn; [lia |].
  cbn [digits].
  assert (Hmod : 0 <= n mod 10 < 10) by (apply Z.mod_pos_bound; lia).
  destruct (Z.ltb_spec n 10) as [Hlt | Hge]; [eauto |].
  destruct fuel as [|fuel]; [cbn [digits]; eauto |].
  apply IH; [lia | apply Z.div_pos; lia].
Qed.

Lemma length_digits fuel : forall n acc,
  (String.length (digits fuel n acc) <= fuel + String.length acc)%nat.
Proof.
  induction fuel as [|fuel IH]; intros n acc; cbn [digits]; [lia |].
  destruct (n <? 10); [simpl; lia |].
  etransitivity; [apply IH |]. simpl. lia.
Qed.

Lemma short_to_string z : short (to_string z).
Proof.
  unfold short, strlen, to_string.
  destruct (z <? 0).
  - pose proof (length_digits 20 (- z) EmptyString).
    cbn [String.length] in *. change (2 ^ 32) with 4294967296. lia.
  - pose proof (length_digits 20 z EmptyString).
    cbn [String.length] in *. change (2 ^ 32) with 4294967296. lia.
Qed.

(** A string that starts with a decimal digit is read from its first
    character on, with no sign. *)
Lemma extract_int64_digit d s :
  0 <= d < 10 ->
  extract_int64 (String (digit_char d) s)
  = let '(v, seen) := read_digits (String (digit_char d) s) 0 false in
    if seen then Z.max INT64_MIN (Z.min INT64_MAX v) else 0.
Proof. intros H. each_digit d H. Qed.

(** What [sout << ti] writes, [sin >> ti] reads back. *)
Lemma extract_to_string n :
  0 <= n <= INT64_MAX -> extract_int64 (to_string n) = n.
Proof.
  intros Hn. unfold to_string.
  destruct (Z.ltb_spec n 0) as [? | _]; [lia |].
  destruct (digits_head 20 n EmptyString ltac:(lia) ltac:(lia))
    as (d & s & Hd & Hs).
  rewrite Hs, (extract_int64_digit d s Hd), <- Hs.
  destruct (digits_read 20 n EmptyString 0 false) as (k & Hk & Hrd);
    [| lia |].
  { unfold INT64_MAX in Hn. change (10 ^ Z.of_nat 20) with 100000000000000000000.
    change (2 ^ 63) with 9223372036854775808 in Hn. lia. }
  rewrite Hrd. cbn [read_digits]. unfold INT64_MIN, INT64_MAX in *.
  change (2 ^ 63) with 9223372036854775808 in *. lia.
Qed.

(** * The counter and the growth of its log *)

Section Counter.

Variable key : string.
Hypothesis Hkey : short key.

Lemma counter_growth_mono n m :
  (n <= m)%nat -> counter_growth key n <= counter_growth key m.
Proof.
  induction 1 as [|m Hle IH]; [lia |]. cbn [counter_growth].
  pose proof (blen_nonneg (encode_record (key, to_string (Z.of_nat (S m))))). lia.
Qed.

Lemma counter_growth_ge n : 8 * Z.of_nat n <= counter_growth key n.
Proof.
  induction n as [|n IH]; [simpl; lia |]. cbn [counter_growth].
  pose proof (blen_encode_record_ge (key, to_string (Z.of_nat (S n)))). lia.
Qed.

Lemma counter_text_value n :
  Z.of_nat n <= INT64_MAX ->
  extract_int64 (default EmptyString (counter_text n)) = Z.of_nat n.
Proof.
  intros Hn. destruct n as [|n]; [reflexivity |].
  cbn [counter_text default from_option id]. apply extract_to_string. lia.
Qed.

End Counter.

(** * What a refresh keeps, on any file *)

(** The refresh only inserts into the cache: a key that is there stays. *)
Lemma replay_keeps_keys fuel : forall sz f st f' st' k,
  replay fuel sz f st = Ret (f', st') ->
  is_Some (cache_ st !! k) -> is_Some (cache_ st' !! k).
Proof.
  induction fuel as [|fuel IH]; intros sz f st f' st' k; cbn [replay];
    destruct (sz >? pos_ st); try discriminate;
    try (intros [= <- <-]; trivial).
  destruct (readString_cases f) as [(tk & f1 & E1) | E1]; rewrite E1;
    cbn [bind]; [| discriminate].
  destruct (readString_cases f1) as [(tv & f2 & E2) | E2]; rewrite E2;
    cbn [bind]; [| discriminate].
  unfold tell. destruct (fd_off f2 <? 0); cbn [bind]; [discriminate |].
  intros Hre Hk. eapply IH; [exact Hre |]. cbn [cache_].
  apply lookup_insert_is_Some. destruct (decide (tk = k)); auto.
Qed.

(** The refresh leaves the bytes of the file alone and moves the cursor
    forward only, never past the end of a file that fits the [int]
    cursor. *)
Lemma replay_cursor fuel : forall sz f st f' st',
  fd_off f = pos_ st -> 0 <= pos_ st -> blen (fd_bytes f) < 2 ^ 31 ->
  replay fuel sz f st = Ret (f', st') ->
  fd_bytes f' = fd_bytes f /\ fd_off f' = pos_ st'
  /\ pos_ st <= pos_ st' <= Z.max (pos_ st) (blen (fd_bytes f)).
Proof.
  induction fuel as [|fuel IH]; intros sz f st f' st' Hoff Hpos Hsz;
    cbn [replay]; destruct (sz >? pos_ st); try discriminate;
    try (intros [= <- <-]; repeat split; trivial; lia).
  destruct (readString_cases f) as [(tk & f1 & E1) | E1]; rewrite E1;
    cbn [bind]; [| discriminate].
  destruct (readString_bounds f tk f1 ltac:(lia) E1) as (Hb1 & Ho1).
  destruct (readString_cases f1) as [(tv & f2 & E2) | E2]; rewrite E2;
    cbn [bind]; [| discriminate].
  destruct (readString_bounds f1 tv f2 ltac:(lia) E2) as (Hb2 & Ho2).
  unfold tell. destruct (fd_off f2 <? 0); cbn [bind]; [discriminate |].
  rewrite Hb1 in Ho2.
  assert (Hint : to_int (fd_off f2) = fd_off f2) by (apply to_int_small; lia).
  rewrite Hint. intros Hre.
  apply IH in Hre; cbn [pos_]; [| reflexivity | lia | rewrite Hb2, Hb1; lia].
  cbn [pos_] in Hre. rewrite Hb2, Hb1 in Hre. destruct Hre as (-> & -> & Hle).
  repeat split; lia.
Qed.

(** What one [check] does to an instance, on any file that fits the
    cursor: the file must be there, the cursor only moves forward and
    not past the end, cached keys stay, and the answer is read off the
    new cache. *)
Lemma check_effect keys st fs b st' :
  0 <= pos_ st -> blen (default [] fs) < 2 ^ 31 ->
  check keys st fs = Ret (b, st') ->
  pos_ st <= pos_ st' <= Z.max (pos_ st) (blen (default [] fs))
  /\ (forall k, is_Some (cache_ st !! k) -> is_Some (cache_ st' !! k))
  /\ b = forallb (fun key => bool_decide (is_Some (cache_ st' !! key))) keys.
Proof.
  intros Hpos Hsz. unfold check. destruct fs as [bs|]; cbn [File_open bind];
    [| discriminate].
  cbn [default from_option id] in *. rewrite size_fresh. cbn [bind].
  destruct (blen bs =? pos_ st); cbn [bind].
  - intros [= <- <-]. repeat split; trivial; lia.
  - rewrite seek_set by assumption. cbn [bind].
    destruct (replay _ _ _ _) as [[f' st1]| | |] eqn:E; cbn [bind];
      try discriminate.
    intros [= <- <-].
    pose proof E as E'.
    apply replay_cursor in E' as (_ & _ & Hc);
      [| reflexivity | assumption | assumption].
    cbn [fd_bytes] in Hc. split; [exact Hc | split; [| reflexivity]].
    intros k. eapply replay_keeps_keys. exact E.
Qed.

Lemma add_effect key i st fs r st' fs' :
  0 <= pos_ st -> blen (default [] fs) < 2 ^ 31 ->
  add key i st fs = Ret (r, st', fs') ->
  pos_ st <= pos_ st' <= Z.max (pos_ st) (blen (default [] fs))
  /\ (forall k, is_Some (cache_ st !! k) -> is_Some (cache_ st' !! k))
  /\ is_Some (cache_ st' !! key).
Proof.
  intros Hpos Hsz. unfold add. rewrite open_create. cbn [bind].
  rewrite size_fresh. cbn [bind].
  destruct (blen (default [] fs) >? pos_ st); cbn [bind].
  - rewrite seek_set by assumption. cbn [bind].
    destruct (replay _ _ _ _) as [[f' st1]| | |] eqn:E; cbn [bind];
      try discriminate.
    destruct (in_int64 _); [| discriminate]. intros [= _ <- _].
    pose proof E as E'.
    apply replay_cursor in E' as (_ & _ & Hc);
      [| reflexivity | assumption | assumption].
    cbn [fd_bytes pos_ cache_] in *. split; [exact Hc | split].
    + intros k Hk. apply lookup_insert_is_Some.
      destruct (decide (key = k)); [auto | right; split; [assumption |]].
      eapply replay_keeps_keys; eassumption.
    + rewrite lookup_insert_eq. eauto.
  - destruct (in_int64 _); [| discriminate]. intros [= _ <- _].
    cbn [pos_ cache_]. split; [lia | split].
    + intros k Hk. apply lookup_insert_is_Some.
      destruct (decide (key = k)); auto.
    + rewrite lookup_insert_eq. eauto.
Qed.

Lemma get_loop_effect fuel fs key : forall i st v st',
  0 <= pos_ st -> blen (default [] fs) < 2 ^ 31 ->
  get_loop fuel (fun _ => fs) i key st = Ret (v, st') ->
  pos_ st <= pos_ st' <= Z.max (pos_ st) (blen (default [] fs))
  /\ (forall k, is_Some (cache_ st !! k) -> is_Some (cache_ st' !! k))
  /\ cache_ st' !! key = Some v.
Proof.
  induction fuel as [|fuel IH]; intros i st v st' Hpos Hsz; cbn [get_loop];
    destruct (cache_ st !! key) as [c|] eqn:Hc;
    try (intros [= <- <-]; repeat split; trivial; lia); try discriminate.
  destruct fs as [bs|]; cbn [File_open bind]; [| discriminate].
  cbn [default from_option id] in *. rewrite size_fresh. cbn [bind].
  destruct (blen bs =? pos_ st); [apply IH; assumption |].
  rewrite seek_set by assumption. cbn [bind].
  destruct (replay _ _ _ _) as [[f' st1]| | |] eqn:E; cbn [bind];
    try discriminate.
  pose proof E as E'.
    apply replay_cursor in E' as (_ & _ & Hc1);
      [| reflexivity | assumption | assumption].
  cbn [fd_bytes] in Hc1. intros Hget.
  apply IH in Hget as (Hc2 & Hkeys & Hv); [| lia | assumption].
  split; [lia | split; [| exact Hv]].
  intros k Hk. apply Hkeys. eapply replay_keeps_keys; eassumption.
Qed.

Lemma check_answer keys st fs b st' :
  check keys st fs = Ret (b, st') ->
  (forall k, is_Some (cache_ st !! k) -> is_Some (cache_ st' !! k))
  /\ b = forallb (fun key => bool_decide (is_Some (cache_ st' !! key))) keys.
Proof.
  unfold check. destruct fs as [bs|]; cbn [File_open bind]; [| discriminate].
  rewrite size_fresh. cbn [bind]. destruct (blen bs =? pos_ st); cbn [bind].
  - intros [= <- <-]. auto.
  - destruct (seek _ _ _) as [[p f]| | |]; cbn [bind]; try discriminate.
    destruct (replay _ _ _ _) as [[f' st1]| | |] eqn:E; cbn [bind];
      try discriminate.
    intros [= <- <-]. split; [| reflexivity].
    intros k. eapply replay_keeps_keys. exact E.
Qed.

Lemma get_loop_cached fuel world key : forall i st v st',
  get_loop fuel world i key st = Ret (v, st') -> cache_ st' !! key = Some v.
Proof.
  induction fuel as [|fuel IH]; intros i st v st'; cbn [get_loop];
    destruct (cache_ st !! key) as [c|] eqn:Hc;
    try (intros [= <- <-]; exact Hc); try discriminate.
  destruct (File_open (world i) O_RDONLY) as [f| | |]; cbn [bind];
    try discriminate.
  destruct (size f) as [[sz f0]| | |]; cbn [bind]; try discriminate.
  destruct (sz =? pos_ st); [apply IH |].
  destruct (seek _ _ _) as [[p f1]| | |]; cbn [bind]; try discriminate.
  destruct (replay _ _ _ _) as [[f' st1]| | |]; cbn [bind]; try discriminate.
  apply IH.
Qed.

(** * Further properties of the store *)

(** X1: on a file shorter than 2^31 bytes, [check], [add] and [get] move
    the cursor of an instance forward only, and never past the end of the
    file (a cursor that starts at or before the end stays there),
    whatever bytes the file holds. *)
Theorem cursor_moves_forward st fs :
  0 <= pos_ st -> blen (default [] fs) < 2 ^ 31 ->
  (forall keys b st', check keys st fs = Ret (b, st') ->
     pos_ st <= pos_ st' <= Z.max (pos_ st) (blen (default [] fs)))
  /\ (forall key i r st' fs', add key i st fs = Ret (r, st', fs') ->
        pos_ st <= pos_ st' <= Z.max (pos_ st) (blen (default [] fs)))
  /\ (forall fuel key v st', get fuel key st fs = Ret (v, st') ->
        pos_ st <= pos_ st' <= Z.max (pos_ st) (blen (default [] fs))).
Proof.
  intros Hpos Hsz. split; [| split].
  - intros keys b st' H. now apply (check_effect keys st fs b st' Hpos Hsz) in H.
  - intros key i r st' fs' H.
    now apply (add_effect key i st fs r st' fs' Hpos Hsz) in H.
  - intros fuel key v st' H. unfold get in H.
    now apply (get_loop_effect fuel fs key 0%nat st v st' Hpos Hsz) in H.
Qed.

Lemma cursor_moves_forward_witness :
  0 <= pos_ FileStore_new
  /\ forall keys b st',
       check keys FileStore_new (Some cut_log) = Ret (b, st') ->
       pos_ FileStore_new <= pos_ st'
       <= Z.max (pos_ FileStore_new) (blen (default [] (Some cut_log))).
Proof.
  split; [vm_compute; discriminate |].
  apply (cursor_moves_forward FileStore_new (Some cut_log));
    [vm_compute; discriminate | vm_compute; reflexivity].
Defined.



(** X3: a [get] that follows directly on the [get] that returned a value
    for a key, with no other call of the instance between the two, returns
    that value again: at once for any number of passes allowed, without
    opening the file, whatever has been written since, and it leaves the
    instance as it was. *)
Theorem get_is_sticky fuel world i key st v st' :
  get_loop fuel world i key st = Ret (v, st') ->
  forall fuel' world' i', get_loop fuel' world' i' key st' = Ret (v, st').
Proof.
  intros H fuel' world' i'. apply get_loop_cached in H.
  destruct fuel'; cbn [get_loop]; now rewrite H.
Qed.

Lemma get_is_sticky_witness :
  get_loop 1 (fun _ => Some (encode_log [("k", "v")%string])) 0 "k" FileStore_new
  = Ret ("v"%string, mkStore 10 {[ "k"%string := "v"%string ]})
  /\ get_loop 0 (fun _ => None) 7 "k" (mkStore 10 {[ "k"%string := "v"%string ]})
     = Ret ("v"%string, mkStore 10 {[ "k"%string := "v"%string ]}).
Proof.
  assert (H : get_loop 1 (fun _ => Some (encode_log [("k", "v")%string])) 0 "k"
                FileStore_new
              = Ret ("v"%string, mkStore 10 {[ "k"%string := "v"%string ]}))
    by (vm_compute; reflexivity).
  split; [exact H |].
  apply (get_is_sticky _ _ _ _ _ _ _ H 0%nat (fun _ => None) 7%nat).
Defined.

(** The value can change once another call of the instance has
    refreshed the cache: B reads k as v1; k is set to v2 and k2 to x; B
    reads k2, which replays both records; B then reads k as v2. *)
Example get_after_a_refresh :
  (let* (_, fs) := set "k" "v1" FileStore_new None in
   let* (r1, b) := get 1 "k" FileStore_new fs in
   let* (_, fs) := set "k" "v2" FileStore_new fs in
   let* (_, fs) := set "k2" "x" FileStore_new fs in
   let* (_, b) := get 1 "k2" b fs in
   let* (r2, _) := get 1 "k" b fs in
   Ret (r1, r2)) = Ret ("v1"%string, "v2"%string).
Proof. vm_compute. reflexivity. Qed.

(** The pass of [get] that brings an instance to the end of the log
    without finding the key. *)
Lemma get_first_pass fuel world i key st bs pre rs :
  world i = Some bs -> synced st bs pre rs ->
  apply_log rs (cache_ st) !! key = None ->
  get_loop (S fuel) world i key st
  = get_loop fuel world (S i) key (mkStore (blen bs) (apply_log rs (cache_ st))).
Proof.
  intros Hw Hsync Hnone.
  assert (Hmiss : cache_ st !! key = None).
  { destruct (cache_ st !! key) eqn:E; [| reflexivity].
    destruct (apply_log_keeps rs (cache_ st) key) as [x Hx]; [eauto |].
    congruence. }
  cbn [get_loop]. rewrite Hmiss, Hw. cbn [File_open bind].
  rewrite size_fresh. cbn [bind].
  destruct (synced_size_cases _ _ _ _ Hsync) as [[-> Heq] | [Hrs Hlt]].
  - rewrite Heq, Z.eqb_refl. destruct st as [p c]. cbn [pos_ cache_] in *.
    now subst p.
  - destruct Hsync as (Hbs & Hpos & Hshort & Hsz). destruct st as [p c].
    cbn [pos_ cache_] in *. subst p.
    destruct (Z.eqb_spec (blen bs) (blen pre)) as [E | _]; [lia |].
    rewrite seek_set by apply blen_nonneg. cbn [bind].
    now rewrite (replay_synced pre rs bs c Hbs Hshort Hsz).
Qed.

(** Passes of [get] over a file that has not grown: nothing is read. *)
Lemma get_polls n : forall fuel world i key bs c,
  (forall j, (i <= j < i + n)%nat -> world j = Some bs) ->
  c !! key = None ->
  get_loop (n + fuel) world i key (mkStore (blen bs) c)
  = get_loop fuel world (i + n) key (mkStore (blen bs) c).
Proof.
  induction n as [|n IH]; intros fuel world i key bs c Hw Hnone.
  - now rewrite Nat.add_0_r.
  - cbn [Nat.add get_loop cache_ pos_]. rewrite Hnone, (Hw i) by lia.
    cbn [File_open bind]. rewrite size_fresh. cbn [bind].
    rewrite Z.eqb_refl, (IH fuel world (S i) key bs c); [| | assumption].
    + f_equal. lia.
    + intros j Hj. apply Hw. lia.
Qed.

(** X4: [get] has no timeout.  On a log of complete records that does
    not hold the key and does not grow, [get] neither returns nor throws:
    it is still polling after any number of passes. *)
Theorem get_polls_forever fuel key st bs pre rs :
  synced st bs pre rs -> apply_log rs (cache_ st) !! key = None ->
  get fuel key st (Some bs) = Spin.
Proof.
  intros Hsync Hnone. unfold get.
  assert (Hmiss : cache_ st !! key = None).
  { destruct (cache_ st !! key) eqn:E; [| reflexivity].
    destruct (apply_log_keeps rs (cache_ st) key) as [x Hx]; [eauto |].
    congruence. }
  destruct fuel as [|fuel]; [cbn [get_loop]; now rewrite Hmiss |].
  rewrite (get_first_pass fuel _ 0%nat key st bs pre rs eq_refl Hsync Hnone).
  replace fuel with (fuel + 0)%nat by lia.
  rewrite (get_polls fuel 0%nat _ 1%nat key bs _ ltac:(reflexivity) Hnone).
  cbn [get_loop cache_]. now rewrite Hnone.
Qed.

Lemma get_polls_forever_witness :
  synced FileStore_new (encode_log [("a", "b")%string]) []
    [("a", "b")%string]
  /\ get 1000 "k" FileStore_new (Some (encode_log [("a", "b")%string])) = Spin.
Proof.
  assert (Hs : synced FileStore_new (encode_log [("a", "b")%string]) []
                 [("a", "b")%string]).
  { split; [reflexivity | split; [reflexivity | split]];
      [repeat constructor; vm_compute; reflexivity | vm_compute; reflexivity]. }
  split; [exact Hs |].
  apply (get_polls_forever 1000 "k" FileStore_new _ [] [("a", "b")%string] Hs).
  reflexivity.
Defined.

(** X5: [get] blocks, then returns.  An instance polls a log of complete
    records without the key for [n] passes; when the next pass finds
    records appended that carry the key, [get] returns the value of the
    last of them (the log staying below 2^31 bytes). *)
Theorem get_returns_when_key_arrives n fuel world key v st bs pre rs rs' :
  synced st bs pre rs -> apply_log rs (cache_ st) !! key = None ->
  (forall j, (j < n)%nat -> world j = Some bs) ->
  world n = Some (bs ++ encode_log rs') ->
  short_log rs' -> blen (bs ++ encode_log rs') < 2 ^ 31 ->
  apply_log rs' (apply_log rs (cache_ st)) !! key = Some v ->
  get_loop (S n + fuel) world 0 key st
  = Ret (v, mkStore (blen (bs ++ encode_log rs'))
              (apply_log rs' (apply_log rs (cache_ st)))).
Proof.
  intros Hsync Hnone Hold Hnew Hshort' Hsz' Hv.
  destruct n as [|n].
  - rewrite <- apply_log_app in *. cbn [Nat.add].
    destruct Hsync as (Hbs & Hpos & Hshort & Hsz).
    assert (Hmiss : cache_ st !! key = None).
    { destruct (cache_ st !! key) eqn:E; [| reflexivity].
      destruct (apply_log_keeps rs (cache_ st) key) as [x Hx]; [eauto |].
      congruence. }
    apply (get_synced fuel world 0%nat key st _ pre (rs ++ rs'));
      [exact Hnew | | exact Hmiss | exact Hv].
    split; [| split; [assumption | split; [| assumption]]].
    + now rewrite encode_log_app, Hbs, <- app_assoc.
    + apply short_log_app. now split.
  - cbn [Nat.add].
    rewrite (get_first_pass _ world 0%nat key st bs pre rs
               (Hold 0%nat ltac:(lia)) Hsync Hnone).
    replace (S (n + fuel)) with (n + S fuel)%nat by lia.
    rewrite (get_polls n (S fuel) world 1%nat key bs _); [| | assumption].
    + apply (get_synced fuel world (1 + n)%nat key
               (mkStore (blen bs) (apply_log rs (cache_ st)))
               (bs ++ encode_log rs') bs rs');
        [exact Hnew | | exact Hnone | exact Hv].
      split; [reflexivity | split; [reflexivity | split; assumption]].
    + intros j Hj. apply Hold. lia.
Qed.

Lemma get_returns_when_key_arrives_witness :
  synced FileStore_new [] [] []
  /\ get_loop 4 (fun j => if (j <? 3)%nat then Some []
                          else Some ([] ++ encode_log [("k", "v")%string]))
       0 "k" FileStore_new
     = Ret ("v"%string,
            mkStore (blen ([] ++ encode_log [("k", "v")%string]))
              (apply_log [("k", "v")%string] (apply_log [] ∅))).
Proof.
  assert (Hs : synced FileStore_new [] [] []).
  { split; [reflexivity | split; [reflexivity | split]];
      [constructor | vm_compute; reflexivity]. }
  split; [exact Hs |].
  apply (get_returns_when_key_arrives 3 0
           (fun j => if (j <? 3)%nat then Some []
                     else Some ([] ++ encode_log [("k", "v")%string]))
           "k" "v" FileStore_new [] [] [] [("k", "v")%string] Hs);
    [reflexivity
    | intros [|[|[|j]]] Hj; [reflexivity .. | lia]
    | reflexivity
    | repeat constructor; vm_compute; reflexivity
    | vm_compute; reflexivity
    | reflexivity].
Defined.

(** X6: a fresh instance reads what the log holds.  On a log of complete
    records shorter than 2^31 bytes, [get] on an instance fresh from its
    constructor returns the value of the last record that carries the key,
    whoever wrote it, and leaves the cursor at the end of the log. *)
Theorem fresh_get_reads_last_record fuel key v rs1 rs2 :
  short_log (rs1 ++ (key, v) :: rs2) -> key ∉ map fst rs2 ->
  blen (encode_log (rs1 ++ (key, v) :: rs2)) < 2 ^ 31 ->
  exists st',
    get (S fuel) key FileStore_new (Some (encode_log (rs1 ++ (key, v) :: rs2)))
    = Ret (v, st')
    /\ pos_ st' = blen (encode_log (rs1 ++ (key, v) :: rs2)).
Proof.
  intros Hshort Hlast Hsz. eexists. split.
  - unfold get.
    apply (get_synced fuel _ 0%nat key FileStore_new
             (encode_log (rs1 ++ (key, v) :: rs2)) []
             (rs1 ++ (key, v) :: rs2));
      [reflexivity | | reflexivity |].
    + split; [reflexivity | split; [reflexivity | split; assumption]].
    + rewrite apply_log_app. unfold apply_log at 1. cbn [foldl fst snd].
      fold (apply_log rs2 (<[key := v]> (apply_log rs1 (cache_ FileStore_new)))).
      rewrite (apply_log_other rs2 _ key Hlast). apply lookup_insert_eq.
  - reflexivity.
Qed.

Lemma fresh_get_reads_last_record_witness :
  ("k"%string ∉ map fst [("z", "9")%string])
  /\ exists st',
       get 1 "k" FileStore_new
         (Some (encode_log ([("k", "old")%string]
                              ++ ("k", "new")%string :: [("z", "9")%string])))
       = Ret ("new"%string, st')
       /\ pos_ st' = blen (encode_log ([("k", "old")%string]
                              ++ ("k", "new")%string :: [("z", "9")%string])).
Proof.
  assert (Hn : "k"%string ∉ map fst [("z", "9")%string]).
  { cbn [map fst]. intros H. apply list_elem_of_singleton in H. discriminate. }
  split; [exact Hn |].
  apply (fresh_get_reads_last_record 0 "k" "new" [("k", "old")%string]
           [("z", "9")%string]);
    [repeat constructor; vm_compute; reflexivity | exact Hn
    | vm_compute; reflexivity].
Defined.

(** X7: [check] before and after a [set].  For an instance whose cursor is
    at the start of complete records reaching the end of the log, none of
    them carrying the key, [check] of the key answers false; after
    [set key v] by any instance it answers true (the log with the new
    record staying below 2^31 bytes). *)
Theorem check_before_and_after_set key v writer st bs pre rs :
  bs = pre ++ encode_log rs -> pos_ st = blen pre -> short_log rs ->
  short key -> short v ->
  blen (bs ++ encode_record (key, v)) < 2 ^ 31 ->
  apply_log rs (cache_ st) !! key = None ->
  exists st1 st2 fs',
    check [key] st (Some bs) = Ret (false, st1)
    /\ set key v writer (Some bs) = Ret (writer, fs')
    /\ check [key] st fs' = Ret (true, st2)
    /\ check [key] st1 fs' = Ret (true, st2).
Proof.
  intros Hbs Hpos Hshort Hk Hv Hsz Hnone.
  assert (Hsz0 : blen bs < 2 ^ 31).
  { rewrite blen_app in Hsz. pose proof (blen_nonneg (encode_record (key, v))).
    lia. }
  assert (Hrec : short_log [(key, v)]) by now repeat constructor.
  assert (Henc : encode_log [(key, v)] = encode_str key ++ encode_str v)
    by (cbn [encode_log]; apply app_nil_r).
  assert (Hval : forall c, apply_log [(key, v)] c !! key = Some v).
  { intros c. unfold apply_log. cbn [foldl fst snd]. apply lookup_insert_eq. }
  do 3 eexists. split; [| split; [| split]].
  - rewrite (check_synced [key] st bs pre rs) by (repeat split; assumption).
    cbn [forallb]. rewrite Hnone. reflexivity.
  - apply set_appends.
  - cbn [default from_option id].
    rewrite (check_synced [key] st _ pre (rs ++ [(key, v)])).
    + cbn [forallb]. rewrite apply_log_app, Hval. reflexivity.
    + split; [| split; [assumption | split; [| exact Hsz]]].
      * now rewrite encode_log_app, Henc, Hbs, <- app_assoc.
      * apply short_log_app. now split.
  - cbn [default from_option id].
    rewrite (check_synced [key] _ _ bs [(key, v)]).
    + cbn [forallb cache_]. rewrite Hval. reflexivity.
    + split; [now rewrite Henc | split; [reflexivity | split; [exact Hrec |]]].
      exact Hsz.
Qed.

Lemma check_before_and_after_set_witness :
  @nil byte = [] ++ encode_log [] /\ short "k"
  /\ exists st1 st2 fs',
       check ["k"%string] FileStore_new (Some []) = Ret (false, st1)
       /\ set "k" "v" FileStore_new (Some []) = Ret (FileStore_new, fs')
       /\ check ["k"%string] FileStore_new fs' = Ret (true, st2)
       /\ check ["k"%string] st1 fs' = Ret (true, st2).
Proof.
  assert (Hs : short "k") by (vm_compute; reflexivity).
  split; [reflexivity | split; [exact Hs |]].
  apply (check_before_and_after_set "k" "v" FileStore_new FileStore_new
           [] [] []);
    [reflexivity | reflexivity | constructor | exact Hs
    | vm_compute; reflexivity | vm_compute; reflexivity | reflexivity].
Defined.

(** * Further properties of [wait] *)

Lemma check_caught_up names bs c :
  check names (mkStore (blen bs) c) (Some bs)
  = Ret (forallb (fun key => bool_decide (is_Some (c !! key))) names,
         mkStore (blen bs) c).
Proof.
  unfold check. cbn [File_open bind pos_]. rewrite size_fresh. cbn [bind].
  now rewrite Z.eqb_refl.
Qed.

Lemma no_timeout_yet kNoTimeout timeout elapsed :
  timeout = kNoTimeout \/ elapsed * 1000 <= timeout ->
  negb (timeout =? kNoTimeout) && (elapsed * 1000 >? timeout) = false.
Proof.
  intros [-> | Hle].
  - now rewrite Z.eqb_refl.
  - apply andb_false_iff. right. rewrite Z.gtb_ltb. apply Z.ltb_ge. lia.
Qed.

Lemma wait_polls kNoTimeout clock world names timeout start bs c n :
  forall fuel i,
  (forall j, (i <= j < i + n)%nat ->
     world j = Some bs
     /\ (timeout = kNoTimeout
         \/ duration_cast_seconds (clock (S j) - start) * 1000 <= timeout)) ->
  forallb (fun key => bool_decide (is_Some (c !! key))) names = false ->
  wait_loop (n + fuel) kNoTimeout clock world i names timeout start
    (mkStore (blen bs) c)
  = wait_loop fuel kNoTimeout clock world (i + n) names timeout start
      (mkStore (blen bs) c).
Proof.
  induction n as [|n IH]; intros fuel i Hw Hfalse.
  - now rewrite Nat.add_0_r.
  - destruct (Hw i ltac:(lia)) as [Hwi Hci].
    cbn [Nat.add wait_loop]. rewrite Hwi, check_caught_up, Hfalse. cbn [bind].
    rewrite (no_timeout_yet _ _ _ Hci), (IH fuel (S i)); [| | assumption].
    + f_equal. lia.
    + intros j Hj. apply Hw. lia.
Qed.

(** X8: [wait] blocks, then returns.  An instance waits for keys that a
    log of complete records does not all hold; for [n] polls the log does
    not grow and the whole seconds elapsed, in milliseconds, do not exceed
    a finite timeout; when the next poll finds records appended that
    complete the keys, [wait] returns normally with the cursor at the end
    of the log (the log staying below 2^31 bytes). *)
Theorem wait_returns_when_keys_arrive n fuel kNoTimeout clock world names
    timeout st bs pre rs rs' :
  synced st bs pre rs ->
  forallb (fun key => bool_decide (is_Some (apply_log rs (cache_ st) !! key)))
    names = false ->
  (forall j, (j < n)%nat ->
     world j = Some bs
     /\ (timeout = kNoTimeout
         \/ duration_cast_seconds (clock (S j) - clock 0%nat) * 1000
            <= timeout)) ->
  world n = Some (bs ++ encode_log rs') ->
  short_log rs' -> blen (bs ++ encode_log rs') < 2 ^ 31 ->
  forallb (fun key =>
             bool_decide (is_Some (apply_log rs' (apply_log rs (cache_ st)) !! key)))
    names = true ->
  wait (S n + fuel) kNoTimeout clock world names timeout st
  = Ret (tt, mkStore (blen (bs ++ encode_log rs'))
               (apply_log rs' (apply_log rs (cache_ st)))).
Proof.
  intros Hsync Hfalse Hold Hnew Hshort' Hsz' Htrue. unfold wait.
  destruct n as [|n].
  - cbn [Nat.add wait_loop]. rewrite Hnew.
    destruct Hsync as (Hbs & Hpos & Hshort & Hsz).
    rewrite (check_synced names st _ pre (rs ++ rs')).
    + rewrite apply_log_app, Htrue. reflexivity.
    + split; [| split; [assumption | split; [| assumption]]].
      * now rewrite encode_log_app, Hbs, <- app_assoc.
      * apply short_log_app. now split.
  - destruct (Hold 0%nat ltac:(lia)) as [Hw0 Hc0].
    change (S (S n) + fuel)%nat with (S (S n + fuel)). cbn [wait_loop].
    rewrite Hw0.
    rewrite (check_synced names st bs pre rs Hsync), Hfalse. cbn [bind].
    rewrite (no_timeout_yet _ _ _ Hc0).
    replace (S n + fuel)%nat with (n + S fuel)%nat by lia.
    rewrite (wait_polls _ _ _ _ _ _ bs _ n (S fuel) 1%nat); [| | assumption].
    + cbn [wait_loop]. replace (1 + n)%nat with (S n) by lia. rewrite Hnew.
      rewrite (check_synced names _ (bs ++ encode_log rs') bs rs').
      * cbn [cache_]. rewrite Htrue. reflexivity.
      * split; [reflexivity | split; [reflexivity | split; assumption]].
    + intros j Hj. apply Hold. lia.
Qed.

Lemma wait_returns_when_keys_arrive_witness :
  let world := fun j : nat =>
    if (j <? 5)%nat then Some [] else Some ([] ++ encode_log [("k", "v")%string]) in
  synced FileStore_new [] [] []
  /\ wait 6 0 clock_10ms world ["k"%string] 100 FileStore_new
     = Ret (tt, mkStore (blen ([] ++ encode_log [("k", "v")%string]))
                  (apply_log [("k", "v")%string] (apply_log [] ∅))).
Proof.
  intros world.
  assert (Hs : synced FileStore_new [] [] []).
  { split; [reflexivity | split; [reflexivity | split]];
      [constructor | vm_compute; reflexivity]. }
  split; [exact Hs |].
  apply (wait_returns_when_keys_arrive 5 0 0 clock_10ms world ["k"%string] 100
           FileStore_new [] [] [] [("k", "v")%string] Hs);
    [reflexivity
    | intros [|[|[|[|[|j]]]]] Hj;
        [split; [reflexivity | right; vm_compute; discriminate] .. | lia]
    | reflexivity
    | repeat constructor; vm_compute; reflexivity
    | vm_compute; reflexivity
    | reflexivity].
Defined.


(** X10: [wait] does not give up early.  When [wait] with a timeout that
    is not negative throws "Wait timeout", a reading of the clock lies more
    than the timeout after the reading taken at the start. *)
Theorem wait_timeout_is_not_early fuel kNoTimeout clock world names timeout
    st msg :
  0 <= timeout ->
  wait fuel kNoTimeout clock world names timeout st
  = Throw (runtime_error msg) ->
  exists n, timeout * 1000000 < clock n - clock 0%nat.
Proof.
  intros Ht H. unfold wait in H.
  exact (wait_not_early fuel kNoTimeout clock world names timeout
           (clock 0%nat) msg Ht 0%nat st H).
Qed.

Lemma wait_timeout_is_not_early_witness :
  0 <= 100
  /\ wait 100 0 clock_10ms (fun _ => Some []) ["missing"%string] 100
       FileStore_new = Throw (runtime_error "Wait timeout")
  /\ exists n, 100 * 1000000 < clock_10ms n - clock_10ms 0.
Proof.
  assert (H : wait 100 0 clock_10ms (fun _ => Some []) ["missing"%string] 100
                FileStore_new = Throw (runtime_error "Wait timeout"))
    by (vm_compute; reflexivity).
  split; [lia | split; [exact H |]].
  assert (Ht : 0 <= 100) by lia.
  exact (wait_timeout_is_not_early _ _ _ _ _ _ _ _ Ht H).
Defined.

(** * Decimal text, signed *)

Lemma strlen_to_string z : strlen (to_string z) <= 21.
Proof.
  unfold strlen, to_string. destruct (z <? 0).
  - pose proof (length_digits 20 (- z) EmptyString).
    cbn [String.length] in *. lia.
  - pose proof (length_digits 20 z EmptyString).
    cbn [String.length] in *. lia.
Qed.

Lemma extract_to_string_signed z :
  in_int64 z = true -> extract_int64 (to_string z) = z.
Proof.
  unfold in_int64, INT64_MIN, INT64_MAX. intros Hz.
  apply andb_prop in Hz as [Hlo Hhi].
  apply Z.leb_le in Hlo. apply Z.leb_le in Hhi.
  change (2 ^ 63) with 9223372036854775808 in *.
  destruct (Z.lt_ge_cases z 0) as [Hneg | Hpos].
  - unfold to_string. rewrite (proj2 (Z.ltb_lt z 0) Hneg).
    unfold extract_int64. cbn [skipws].
    change (isspace "-") with false. cbv iota.
    destruct (digits_read 20 (- z) EmptyString 0 false) as (k & Hk & Hrd);
      [| lia |].
    { change (10 ^ Z.of_nat 20) with 100000000000000000000. lia. }
    cbv beta iota. rewrite Hrd. cbn [read_digits].
    unfold INT64_MIN, INT64_MAX.
    change (2 ^ 63) with 9223372036854775808. lia.
  - apply extract_to_string. unfold INT64_MAX.
    change (2 ^ 63) with 9223372036854775808. lia.
Qed.

(** X11: what [add] writes it reads back.  The decimal text [sout << ti]
    produces for any 64-bit value, negative ones included, is read by
    [sin >> ti] as that value. *)
Theorem extract_to_string_int64 z :
  in_int64 z = true -> extract_int64 (to_string z) = z.
Proof. apply extract_to_string_signed. Qed.

Lemma extract_to_string_int64_witness :
  in_int64 (- 9223372036854775808) = true
  /\ extract_int64 (to_string (- 9223372036854775808)) = - 9223372036854775808.
Proof.
  split; [reflexivity |].
  apply (extract_to_string_int64 (- 9223372036854775808)). reflexivity.
Defined.

(** * One instance adding in turn *)

Section Totals.

Variable key : string.
Hypothesis Hkey : short key.

Lemma blen_counter_record t :
  blen (encode_record (key, to_string t)) <= strlen key + 29.
Proof.
  unfold encode_record. cbn [fst snd].
  rewrite blen_app, (length_encode_str key Hkey),
    (length_encode_str (to_string t) (short_to_string t)).
  pose proof (strlen_to_string t). lia.
Qed.

Lemma add_step_at t d fs st :
  let bs := default [] fs in
  let r := (key, to_string (t + d)) in
  inst_at key t bs st ->
  blen (bs ++ encode_record r) < 2 ^ 31 -> in_int64 (t + d) = true ->
  exists st',
    add key d st fs = Ret (t + d, st', Some (bs ++ encode_record r))
    /\ inst_at key (t + d) (bs ++ encode_record r) st'.
Proof.
  intros bs r (pre & rs & Hbs & Hpos & Hshort & Hcase & Hval) Hsz Hin.
  assert (Hbs_sz : blen bs < 2 ^ 31).
  { rewrite blen_app in Hsz. pose proof (blen_nonneg (encode_record r)). lia. }
  assert (Hsync : synced st bs pre rs) by (repeat split; assumption).
  pose proof (add_synced key d st fs bs pre rs eq_refl Hsync Hcase) as Hadd.
  cbv zeta in Hadd. rewrite Hval in Hadd. specialize (Hadd Hin).
  eexists. split; [exact Hadd |].
  exists bs, [r]. cbn [pos_ cache_].
  split; [cbn [encode_log]; now rewrite app_nil_r |].
  split; [reflexivity |].
  split; [constructor; [split; [exact Hkey | apply short_to_string]
                       | constructor] |].
  split; [left; discriminate |].
  unfold apply_log. cbn [foldl]. subst r. cbn [fst snd].
  rewrite lookup_insert_eq. cbn [default from_option id].
  now apply extract_to_string_signed.
Qed.

Lemma run_deltas_totals ds : forall t st fs,
  inst_at key t (default [] fs) st ->
  Forall (fun x => in_int64 x = true) (sums t ds) ->
  blen (default [] fs) + Z.of_nat (length ds) * (strlen key + 29) < 2 ^ 31 ->
  exists st' fs',
    run_deltas key ds st fs = Ret (sums t ds, st', fs')
    /\ default [] fs'
       = default [] fs
           ++ encode_log (map (fun x => (key, to_string x)) (sums t ds)).
Proof.
  induction ds as [|d ds IH]; intros t st fs Hinst Hin Hsz.
  - exists st, fs. cbn [run_deltas sums map encode_log].
    now rewrite app_nil_r.
  - cbn [sums] in Hin. apply Forall_cons in Hin as [Hd Hin].
    cbn [length] in Hsz. rewrite Nat2Z.inj_succ in Hsz.
    pose proof (blen_counter_record (t + d)) as Hrec.
    assert (Hk0 : 0 <= strlen key + 29) by (unfold strlen; lia).
    assert (Hrest : 0 <= Z.of_nat (length ds) * (strlen key + 29)) by nia.
    destruct (add_step_at t d fs st Hinst) as (st1 & Hadd & Hinst1);
      [rewrite blen_app; nia | exact Hd |].
    destruct (IH (t + d) st1
                (Some (default [] fs ++ encode_record (key, to_string (t + d)))))
      as (st' & fs' & Hrun & Hfile).
    + exact Hinst1.
    + exact Hin.
    + cbn [default from_option id]. rewrite blen_app. nia.
    + exists st', fs'. cbn [run_deltas]. rewrite Hadd. cbn [bind snd fst].
      rewrite Hrun. cbn [bind fst snd]. split; [reflexivity |].
      rewrite Hfile. cbn [default from_option id sums map encode_log].
      now rewrite <- app_assoc.
Qed.

(** X12: [add] keeps a running total.  An instance fresh from its
    constructor, on a log of complete records, calls [add key d] for each
    [d] of a list, of either sign: the calls return the running totals,
    starting from the number the last logged text of the key reads as (0
    when there is none), and the log gains exactly one record per call
    with the decimal text of that total, provided the totals fit 64 bits
    and the log stays below 2^31 bytes. *)
Theorem add_keeps_running_total ds fs rs0 :
  default [] fs = encode_log rs0 -> short_log rs0 ->
  let t0 := extract_int64 (default EmptyString (apply_log rs0 ∅ !! key)) in
  Forall (fun x => in_int64 x = true) (sums t0 ds) ->
  blen (encode_log rs0) + Z.of_nat (length ds) * (strlen key + 29) < 2 ^ 31 ->
  exists st' fs',
    run_deltas key ds FileStore_new fs = Ret (sums t0 ds, st', fs')
    /\ default [] fs'
       = encode_log rs0
           ++ encode_log (map (fun x => (key, to_string x)) (sums t0 ds)).
Proof.
  intros Hfs Hshort t0 Hin Hsz.
  destruct (run_deltas_totals ds t0 FileStore_new fs) as (st' & fs' & Hrun & Hf).
  - exists [], rs0. rewrite Hfs. cbn [pos_ cache_].
    split; [reflexivity | split; [reflexivity | split; [assumption |]]].
    split; [| reflexivity].
    destruct rs0; [now right | left; discriminate].
  - exact Hin.
  - now rewrite Hfs.
  - exists st', fs'. rewrite Hfs in Hf. now split.
Qed.

End Totals.

Lemma add_keeps_running_total_witness :
  short "n"
  /\ exists st' fs',
       run_deltas "n" [5; -7; 2] FileStore_new None
       = Ret (sums (extract_int64 (default EmptyString (apply_log [] ∅ !! "n"%string)))
                [5; -7; 2], st', fs')
       /\ default [] fs'
          = encode_log []
              ++ encode_log (map (fun x => ("n"%string, to_string x))
                               (sums (extract_int64
                                        (default EmptyString
                                           (apply_log [] ∅ !! "n"%string)))
                                  [5; -7; 2])).
Proof.
  assert (Hs : short "n") by (vm_compute; reflexivity).
  split; [exact Hs |].
  apply (add_keeps_running_total "n" Hs [5; -7; 2] None []);
    [reflexivity | constructor
    | repeat constructor | vm_compute; reflexivity].
Defined.

(** * Further properties of [File] *)

Lemma length_string_of_list_byte bs :
  String.length (String.string_of_list_byte bs) = length bs.
Proof.
  unfold String.string_of_list_byte.
  induction bs as [|b bs IH]; [reflexivity |]. cbn [map String.string_of_list_ascii String.length].
  now rewrite IH.
Qed.

Lemma Z_of_byte_nonneg b : 0 <= Z_of_byte b.
Proof. unfold Z_of_byte. lia. Qed.

Lemma le32_val_nonneg bs : 0 <= le32_val bs.
Proof.
  unfold le32_val.
  destruct bs as [|b0 [|b1 [|b2 [|b3 [|b4 bs]]]]]; try lia.
  pose proof (Z_of_byte_nonneg b0). pose proof (Z_of_byte_nonneg b1).
  pose proof (Z_of_byte_nonneg b2). pose proof (Z_of_byte_nonneg b3).
  change (2 ^ 8) with 256. change (2 ^ 16) with 65536.
  change (2 ^ 24) with 16777216. lia.
Qed.

(** X13: a string written is the string read.  [writeString] at the end
    of any file, for a string shorter than 2^32 bytes, followed by a seek
    back to where it started and [readString], returns that string and
    leaves the descriptor at the new end of the file. *)
Theorem writeString_then_readString bs s :
  short s ->
  let f1 := writeString (mkFile bs (blen bs)) s in
  fd_bytes f1 = bs ++ encode_str s
  /\ (let* (_, f2) := seek f1 (blen bs) SEEK_SET in readString f2)
     = Ret (s, f1).
Proof.
  intros Hs f1. subst f1. rewrite writeString_at_end. cbn [fd_bytes].
  split; [reflexivity |].
  rewrite seek_set by apply blen_nonneg. cbn [bind].
  pose proof (readString_encoded bs s [] Hs) as H.
  rewrite app_nil_r in H. exact H.
Qed.

Lemma writeString_then_readString_witness :
  short "value0"
  /\ (let* (_, f2) := seek (writeString (mkFile [] (blen [])) "value0")
                        (blen []) SEEK_SET in readString f2)
     = Ret ("value0"%string, writeString (mkFile [] (blen [])) "value0").
Proof.
  assert (Hs : short "value0") by (vm_compute; reflexivity).
  split; [exact Hs |].
  exact (proj2 (writeString_then_readString [] "value0" Hs)).
Defined.

(** X14: [File::size] returns the length of the file and puts the
    descriptor back where it was. *)
Theorem size_restores_offset bs off :
  0 <= off -> size (mkFile bs off) = Ret (blen bs, mkFile bs off).
Proof.
  intros Hoff. unfold size, tell. cbn [fd_off].
  destruct (Z.ltb_spec off 0) as [? | _]; [lia |]. cbn [bind].
  rewrite seek_end. cbn [bind]. now rewrite seek_set.
Qed.

Lemma size_restores_offset_witness :
  0 <= 3
  /\ size (mkFile cut_log 3) = Ret (blen cut_log, mkFile cut_log 3).
Proof.
  split; [lia |]. apply (size_restores_offset cut_log 3). lia.
Defined.

(** X15: what [readString] returns, when it returns.  The file is not
    changed; the string has exactly the length its prefix declares, even
    when fewer bytes were there; and the descriptor has moved past the
    prefix and the declared bytes, or to the end of the file if that comes
    first. *)
Theorem readString_shape f s f' :
  0 <= fd_off f -> readString f = Ret (s, f') ->
  let len := le32_val (take 4 (drop (Z.to_nat (fd_off f)) (fd_bytes f))) in
  fd_bytes f' = fd_bytes f
  /\ strlen s = len
  /\ fd_off f' = Z.min (blen (fd_bytes f)) (fd_off f + 4 + len).
Proof.
  intros Hoff. unfold readString, read. cbn [fd_bytes fd_off].
  change (Z.to_nat 4) with 4%nat.
  set (hdr := take 4 (drop (Z.to_nat (fd_off f)) (fd_bytes f))).
  destruct (Z.ltb_spec (blen hdr) 4) as [? | Hhdr]; [discriminate |].
  intros [= <- <-]. cbn [fd_bytes fd_off].
  pose proof (le32_val_nonneg hdr) as Hlen.
  assert (Hh : blen hdr = 4 /\ fd_off f + 4 <= blen (fd_bytes f)).
  { subst hdr. unfold blen in *. rewrite length_take, length_drop in *. lia. }
  destruct Hh as [Hh4 Hfit].
  split; [reflexivity | split].
  - unfold strlen. rewrite length_string_of_list_byte, length_app,
      length_replicate, length_take, length_drop. lia.
  - unfold blen in *. rewrite length_take, length_drop. lia.
Qed.

Lemma readString_shape_witness :
  0 <= fd_off (mkFile cut_log 5)
  /\ exists s f', readString (mkFile cut_log 5) = Ret (s, f')
       /\ strlen s = 2 /\ fd_off f' = 10.
Proof.
  split; [vm_compute; discriminate |].
  destruct (readString (mkFile cut_log 5)) as [[s f']| | |] eqn:E;
    try (vm_compute in E; discriminate).
  exists s, f'. split; [reflexivity |].
  destruct (readString_shape (mkFile cut_log 5) s f') as (_ & Hs & Ho);
    [vm_compute; discriminate | exact E |].
  split; [rewrite Hs | rewrite Ho]; vm_compute; reflexivity.
Defined.

(** X16: a sequence of [set] calls writes the log.  Whatever instance
    makes them, [set] calls for the records [rs] in turn leave the
    instance as it was and the file with the encoded records added after
    its former content, in call order. *)
Theorem sets_write_the_log rs : forall st fs,
  exists fs',
    run_sets rs st fs = Ret (st, fs')
    /\ default [] fs' = default [] fs ++ encode_log rs
    /\ (rs <> [] -> fs' = Some (default [] fs ++ encode_log rs)).
Proof.
  induction rs as [|r rs IH]; intros st fs.
  - exists fs. cbn [run_sets encode_log]. rewrite app_nil_r.
    repeat split; congruence.
  - cbn [run_sets]. rewrite set_appends. cbn [bind].
    destruct (IH st (Some (default [] fs ++ encode_str (fst r)
                             ++ encode_str (snd r))))
      as (fs' & Hrun & Hf & Hsome).
    exists fs'. split; [exact Hrun |].
    cbn [default from_option id encode_log] in *. unfold encode_record.
    rewrite <- !app_assoc in *. split; [exact Hf |].
    intros _. destruct rs as [|r' rs'].
    + cbn [run_sets] in Hrun. injection Hrun as <-.
      cbn [encode_log]. now rewrite !app_nil_r.
    + rewrite Hsome by discriminate. reflexivity.
Qed.

(** * Interrupted system calls and the lock object *)

(** X18: [Lock::flock] retries a call that a signal interrupted, however
    often: the outcome is that of the calls after the interrupted ones,
    and [EINTR] never reaches the caller as an exception. *)
Theorem Lock_flock_retries n rest :
  Lock_flock (replicate n (-1, EINTR) ++ rest) = Lock_flock rest
  /\ Lock_flock rest <> Throw (system_error EINTR).
Proof.
  split.
  - induction n as [|n IH]; [reflexivity |]. cbn [replicate app Lock_flock].
    rewrite !Z.eqb_refl. exact IH.
  - induction rest as [|[rv errno] rest IH]; cbn [Lock_flock];
      [discriminate |].
    destruct (rv =? -1); [| discriminate].
    destruct (Z.eqb_spec errno EINTR) as [-> | Hne]; [exact IH |].
    intros [= ->]. contradiction.
Qed.

(** X19: the constructor of [File] retries an [open] that a signal
    interrupted, however often, and returns the descriptor of the first
    call that succeeds; [EINTR] never reaches the caller as an
    exception. *)
Theorem File_ctor_retries n fd errno rest :
  0 <= fd ->
  File_ctor (replicate n (-1, EINTR) ++ (fd, errno) :: rest) = Ret fd
  /\ forall calls, File_ctor calls <> Throw (system_error EINTR).
Proof.
  intros Hfd. split.
  - induction n as [|n IH].
    + cbn [replicate app File_ctor].
      now destruct (Z.ltb_spec fd 0) as [? | _]; [lia |].
    + cbn [replicate app File_ctor]. change (-1 <? 0) with true.
      rewrite Z.eqb_refl. exact IH.
  - intros calls. induction calls as [|[fd' errno'] calls IH];
      cbn [File_ctor]; [discriminate |].
    destruct (fd' <? 0); [| discriminate].
    destruct (Z.eqb_spec errno' EINTR) as [-> | Hne]; [exact IH |].
    intros [= ->]. contradiction.
Qed.

Lemma File_ctor_retries_witness :
  0 <= 3
  /\ File_ctor (replicate 2 (-1, EINTR) ++ (3, 0) :: [(-1, 13)]) = Ret 3.
Proof.
  split; [lia |].
  exact (proj1 (File_ctor_retries 2 3 0 [(-1, 13)] ltac:(lia))).
Defined.

(** X20: a lock is released once.  However often a [Lock] on a valid
    descriptor is moved, the objects left behind release nothing when they
    are destroyed and the last holder makes the one [LOCK_UN] request. *)
Theorem Lock_released_once n fd :
  0 <= fd ->
  flat_map Lock_dtor (snd (Lock_moves n (mkLock fd))) = []
  /\ Lock_dtor (fst (Lock_moves n (mkLock fd))) = [(fd, LOCK_UN)].
Proof.
  intros Hfd. induction n as [|n IH].
  - cbn [Lock_moves fst snd flat_map]. split; [reflexivity |].
    unfold Lock_dtor. cbn [fd_]. rewrite Z.geb_leb.
    now destruct (Z.leb_spec 0 fd) as [_ | ?]; [| lia].
  - cbn [Lock_moves Lock_move fd_].
    destruct (Lock_moves n (mkLock fd)) as [last olds]. cbn [fst snd] in *.
    destruct IH as [IH1 IH2]. split; [| exact IH2].
    cbn [flat_map]. now rewrite IH1.
Qed.

Lemma Lock_released_once_witness :
  0 <= 7
  /\ flat_map Lock_dtor (snd (Lock_moves 2 (mkLock 7))) = []
  /\ Lock_dtor (fst (Lock_moves 2 (mkLock 7))) = [(7, LOCK_UN)].
Proof.
  split; [lia |]. apply (Lock_released_once 2 7). lia.
Defined.

(** * The test program *)

Lemma Semaphore_waits_serves k : forall m,
  0 <= m -> m + Z.of_nat k < 2 ^ 31 ->
  Semaphore_waits k (m + Z.of_nat k) = Some m.
Proof.
  induction k as [|k IH]; intros m Hm Hk.
  - cbn [Semaphore_waits]. f_equal. lia.
  - cbn [Semaphore_waits]. unfold Semaphore_wait.
    destruct (Z.ltb_spec (m + Z.of_nat (S k)) 1) as [? | _]; [lia |].
    rewrite to_int_small by lia.
    replace (m + Z.of_nat (S k) - 1) with (m + Z.of_nat k) by lia.
    apply IH; lia.
Qed.

(** X21: the semaphore of the test lets through as many waiters as were
    posted.  From a count of 0, [post(k)] lets [k] calls of [wait()]
    return, leaving 0, and makes one more caller sleep. *)
Theorem Semaphore_serves_posted k :
  Z.of_nat k < 2 ^ 31 ->
  Semaphore_waits k (Semaphore_post (Z.of_nat k) 0) = Some 0
  /\ Semaphore_waits (S k) (Semaphore_post (Z.of_nat k) 0) = None.
Proof.
  intros Hk. unfold Semaphore_post. rewrite to_int_small by lia.
  pose proof (Semaphore_waits_serves k 0 ltac:(lia) ltac:(lia)) as Hserve.
  split; [exact Hserve |].
  clear Hserve. cbn [Z.add].
  assert (Hgen : forall j m, Z.of_nat j = m -> m < 2 ^ 31 ->
                   Semaphore_waits (S j) m = None).
  { induction j as [|j IH]; intros m Hm Hlt.
    - subst m. reflexivity.
    - cbn [Semaphore_waits]. unfold Semaphore_wait at 1.
      destruct (Z.ltb_spec m 1) as [? | _]; [lia |].
      rewrite to_int_small by lia. apply IH; lia. }
  now apply Hgen.
Qed.

Lemma Semaphore_serves_posted_witness :
  Z.of_nat 4 < 2 ^ 31
  /\ Semaphore_waits 4 (Semaphore_post (Z.of_nat 4) 0) = Some 0
  /\ Semaphore_waits 5 (Semaphore_post (Z.of_nat 4) 0) = None.
Proof.
  assert (H : Z.of_nat 4 < 2 ^ 31) by (vm_compute; reflexivity).
  split; [exact H |]. exact (Semaphore_serves_posted 4 H).
Defined.

Lemma test_check_cached fuel st fs key v :
  cache_ st !! key = Some v -> test_check fuel st fs key v = Ret st.
Proof.
  intros H. unfold test_check, get. rewrite (get_cached_hit _ _ _ _ _ _ H).
  cbn [bind]. now rewrite String.eqb_refl.
Qed.

(** A store fresh from its constructor passes [check(store, key, v)] on
    a log of complete records whose replay gives the key the value. *)
Lemma test_check_fresh fuel rs key v :
  short_log rs -> blen (encode_log rs) < 2 ^ 31 ->
  apply_log rs ∅ !! key = Some v ->
  test_check (S fuel) FileStore_new (Some (encode_log rs)) key v
  = Ret (mkStore (blen (encode_log rs)) (apply_log rs ∅)).
Proof.
  intros Hshort Hsz Hv. unfold test_check, get.
  rewrite (get_synced fuel _ 0%nat key FileStore_new (encode_log rs) [] rs v);
    [| reflexivity | | reflexivity | exact Hv].
  - cbn [bind]. now rewrite String.eqb_refl.
  - split; [reflexivity | split; [reflexivity | split; assumption]].
Qed.

(** * Threads adding under the exclusive lock *)

(** [FileStore::add] is its statements in turn. *)
Lemma add_by_statements key i st fs :
  add key i st fs
  = let* file := File_open fs O_RDWR_CREAT in
    let* (sz, file) := size file in
    let* (r, file) := add_refresh key i sz st file in
    let file := writeString file key in
    let file := writeString file (to_string (fst r)) in
    Ret (fst r, snd r, Some (fd_bytes file)).
Proof.
  unfold add, add_refresh.
  destruct (File_open fs O_RDWR_CREAT) as [f| | |]; cbn [bind]; try reflexivity.
  destruct (size f) as [[sz f0]| | |]; cbn [bind]; try reflexivity.
  destruct (if sz >? pos_ st
            then let* (_, file) := seek f0 (pos_ st) SEEK_SET in
                 replay (replay_fuel file) sz file st
            else Ret (f0, st)) as [[f1 st1]| | |]; cbn [bind]; try reflexivity.
  destruct (in_int64 _); reflexivity.
Qed.

(** The refresh of [add] by an instance between two calls: it reads the
    log to its end and leaves the descriptor there. *)
Lemma add_refresh_synced key i st bs pre rs :
  synced st bs pre rs -> rs <> [] \/ bs = [] ->
  let c := apply_log rs (cache_ st) in
  let cached := default EmptyString (c !! key) in
  let ti := extract_int64 cached + i in
  in_int64 ti = true ->
  add_refresh key i (blen bs) st (mkFile bs 0)
  = Ret (ti, mkStore (blen bs) (<[key := cached]> c), mkFile bs (blen bs)).
Proof.
  intros Hsync Hcase c cached ti Hti. unfold add_refresh.
  destruct (synced_size_cases _ _ _ _ Hsync) as [[-> Heq] | [Hrs Hlt]].
  - destruct Hcase as [? | ->]; [congruence |].
    rewrite <- Heq. change (blen [] >? blen []) with false. cbn [bind].
    fold c. subst c. cbn [apply_log foldl] in *. fold cached. fold ti.
    now rewrite Hti, <- Heq.
  - destruct Hsync as (Hbs & Hpos & Hshort & Hsz). destruct st as [p c0].
    cbn [pos_ cache_] in *. subst p.
    replace (blen bs >? blen pre) with true by (symmetry; apply Z.gtb_lt; lia).
    rewrite seek_set by apply blen_nonneg. cbn [bind].
    rewrite (replay_synced pre rs bs c0 Hbs Hshort Hsz). cbn [bind pos_ cache_].
    fold c. fold cached. fold ti. now rewrite Hti.
Qed.

Lemma sum_calls_insert (f : Worker -> nat) ws : forall j w w',
  ws !! j = Some w ->
  (sum_list (f <$> <[j := w']> ws) + f w = sum_list (f <$> ws) + f w')%nat.
Proof.
  induction ws as [|x ws IH]; intros [|j] w w' H; try discriminate.
  - injection H as ->. simpl. lia.
  - specialize (IH j w w' H). unfold fmap in IH. simpl in *. lia.
Qed.

Lemma sum_calls_ge (f : Worker -> nat) ws : forall j w,
  ws !! j = Some w -> (f w <= sum_list (f <$> ws))%nat.
Proof.
  induction ws as [|x ws IH]; intros [|j] w H; try discriminate.
  - injection H as ->. simpl. lia.
  - specialize (IH j w H). unfold fmap in IH. simpl in *. lia.
Qed.

Lemma sum_calls_replicate (f : Worker -> nat) N w :
  sum_list (f <$> replicate N w) = (N * f w)%nat.
Proof.
  induction N as [|N IH]; [reflexivity |]. unfold fmap in *. simpl. lia.
Qed.

Lemma sum_calls_zero (f : Worker -> nat) ws :
  Forall (fun w => f w = 0%nat) ws -> sum_list (f <$> ws) = 0%nat.
Proof.
  induction 1 as [|w ws Hw _ IH]; [reflexivity |]. unfold fmap in *.
  simpl. lia.
Qed.

Lemma Lock_flock_granted : Lock_flock [(0, 0)] = Ret tt.
Proof. reflexivity. Qed.

Lemma Lock_flock_interrupted : Lock_flock [(-1, EINTR)] = Spin.
Proof. reflexivity. Qed.

(** The destructor of the lock a thread holds releases it. *)
Lemma Lock_dtor_releases j :
  Lock_requests (Lock_dtor (mkLock (Z.of_nat j))) (ExclusiveBy (Z.of_nat j))
  = Ret Free.
Proof.
  unfold Lock_dtor. cbn [fd_].
  destruct (Z.geb_spec (Z.of_nat j) 0) as [_ | H]; [| lia].
  cbn [Lock_requests sys_flock].
  destruct (decide (Z.of_nat j = Z.of_nat j)) as [_ | H]; [| congruence].
  now rewrite Lock_flock_granted.
Qed.

(** A scheduling in two parts is the first part, then the second. *)
Lemma run_workers_app key s1 : forall s2 ws k,
  run_workers key (s1 ++ s2) ws k
  = let* (ws', k') := run_workers key s1 ws k in run_workers key s2 ws' k'.
Proof.
  induction s1 as [|[j sig] s1 IH]; intros s2 ws k; [reflexivity |].
  cbn [app run_workers]. destruct (ws !! j) as [w|]; [| apply IH].
  destruct (worker_step key j sig w k) as [[w' k']| | |]; cbn [bind];
    try reflexivity.
  apply IH.
Qed.

Section Locked.

Variable key : string.
Hypothesis Hkey : short key.
Variable total : nat.
Hypothesis Htotal : Z.of_nat total <= INT64_MAX.

(** A record of the counter added to the log by another thread leaves an
    instance between two calls. *)
Lemma inst_ok_others n bs st :
  inst_ok key n bs st ->
  inst_ok key (S n) (bs ++ encode_record (key, to_string (Z.of_nat (S n)))) st.
Proof.
  set (r := (key, to_string (Z.of_nat (S n)))).
  intros (pre & rs & Hbs & Hpos & Hshort & _ & _).
  assert (Hr : short_log [r]).
  { constructor; [split; [exact Hkey | apply short_to_string] | constructor]. }
  assert (Henc : encode_log [r] = encode_record r)
    by (cbn [encode_log]; apply app_nil_r).
  exists pre, (rs ++ [r]).
  split; [rewrite encode_log_app, Henc, app_assoc; now rewrite <- Hbs |].
  split; [assumption |].
  split; [apply short_log_app; now split |].
  split; [left; now destruct rs |].
  rewrite apply_log_app. unfold apply_log at 1. cbn [foldl]. subst r.
  cbn [fst snd]. now rewrite lookup_insert_eq.
Qed.

(** The thread that holds the lock, at its refresh. *)
Lemma refresh_step n bs st :
  inst_ok key n bs st -> blen bs < 2 ^ 31 -> (S n <= total)%nat ->
  exists st',
    add_refresh key 1 (blen bs) st (mkFile bs 0)
    = Ret (Z.of_nat (S n), st', mkFile bs (blen bs))
    /\ inst_ok key (S n)
         (bs ++ encode_record (key, to_string (Z.of_nat (S n)))) st'.
Proof.
  set (r := (key, to_string (Z.of_nat (S n)))).
  intros (pre & rs & Hbs & Hpos & Hshort & Hcase & Hval) Hsz Hn.
  assert (Hsync : synced st bs pre rs) by (repeat split; assumption).
  pose proof (add_refresh_synced key 1 st bs pre rs Hsync Hcase) as Hre.
  cbv zeta in Hre. rewrite Hval in Hre.
  rewrite (counter_text_value n) in Hre by lia.
  replace (Z.of_nat n + 1) with (Z.of_nat (S n)) in Hre by lia.
  eexists. split.
  - apply Hre. unfold in_int64, INT64_MIN, INT64_MAX in *.
    apply andb_true_intro. split; apply Z.leb_le; lia.
  - exists bs, [r]. cbn [pos_ cache_ encode_log]. rewrite app_nil_r.
    split; [reflexivity | split; [reflexivity | split]].
    { constructor; [split; [exact Hkey | apply short_to_string] | constructor]. }
    split; [left; discriminate |].
    unfold apply_log. cbn [foldl]. subst r. cbn [fst snd].
    now rewrite lookup_insert_eq.
Qed.

(** Outside the lock a thread does not depend on the bytes of the file,
    and a record appended by the holder leaves it as it is. *)
Lemma worker_ok_outside n bs file file' w :
  critical (w_pc w) = false ->
  worker_ok key n bs file w -> worker_ok key n bs file' w.
Proof.
  unfold worker_ok. destruct (w_pc w); cbn [critical]; intros Hc H;
    try discriminate; exact H.
Qed.

Lemma worker_ok_commit n bs file file' w :
  critical (w_pc w) = false ->
  worker_ok key n bs file w ->
  worker_ok key (S n)
    (bs ++ encode_record (key, to_string (Z.of_nat (S n)))) file' w.
Proof.
  unfold worker_ok. destruct (w_pc w); cbn [critical]; intros Hc H;
    try discriminate; cbv zeta in *.
  - destruct H as [H ?]. split; [now apply inst_ok_others | assumption].
  - destruct H as [[H ?] ?].
    split; [split; [now apply inst_ok_others | assumption] | assumption].
  - destruct H as [H ?]. split; [now apply inst_ok_others | assumption].
Qed.

(** One step of any thread keeps the threads and the kernel as
    [workers_inv] has them, and is no exception and no undefined
    behaviour. *)
Lemma worker_step_inv ws k j sig w :
  workers_inv key total ws k -> ws !! j = Some w ->
  exists w' k',
    worker_step key j sig w k = Ret (w', k')
    /\ workers_inv key total (<[j := w']> ws) k'.
Proof.
  intros (n & bs & Hall & Hlock & Hnew & Hsum & Hsz & Hfile) Hj.
  destruct (Hall j w Hj) as [[Hpc Htodo] Hcrit].
  assert (Hjlt : (j < length ws)%nat) by (eapply lookup_lt_Some; eassumption).
  assert (Hn : (n <= total)%nat) by lia.
  pose proof (counter_growth_mono key n total Hn) as Hmono.
  pose proof (blen_nonneg bs) as Hbs0.
  assert (Hbs : blen bs < 2 ^ 31) by lia.
  pose proof (sum_calls_ge calls_left ws j w Hj) as Hge.
  pose proof (fun w' => sum_calls_insert calls_left ws j w w' Hj) as Hins.
  destruct w as [st todo pc off]. destruct k as [kf kl].
  cbn [w_store w_todo w_pc w_off k_file k_lock] in *.
  unfold worker_step. cbn [w_todo w_pc w_store w_off k_file k_lock].
  destruct todo as [|t].
  { do 2 eexists. split; [reflexivity |]. rewrite list_insert_id by assumption.
    exists n, bs. cbn [k_file k_lock].
    split; [exact Hall | split; [exact Hlock |]].
    split; [assumption | split; [assumption | split; assumption]]. }
  destruct pc as [| | |sz|ti|ti|ti|ti]; cbn [critical] in Hcrit;
    cbn [calls_left w_pc w_todo Nat.pred] in Hge.
  - (* open *)
    rewrite open_create. cbn [bind fd_off fd_bytes].
    do 2 eexists. split; [reflexivity |].
    exists n, bs. cbn [k_file k_lock default from_option id].
    split; [| split; [| split; [| split; [| split]]]]; try assumption.
    + intros j' w'' H'.
      apply list_lookup_insert_Some in H' as [(<- & <- & _) | (Hne & H')];
        [| exact (Hall j' w'' H')].
      split; [| exact Hcrit].
      split; [split; [exact Hpc | reflexivity] | intros _; cbn [w_todo]; lia].
    + now rewrite length_insert.
    + specialize (Hins (mkWorker st (S t) AtLock 0)).
      cbn [calls_left w_pc w_todo Nat.pred] in Hins. lia.
    + intros _. eauto.
  - (* lock *)
    destruct Hpc as [Hok Hoff].
    destruct Hlock as [[-> Hlog] | (h & Hh & ->)].
    + (* the lock is free: it is granted *)
      cbn [sys_flock]. rewrite Lock_flock_granted.
      do 2 eexists. split; [reflexivity |].
      exists n, bs. cbn [k_file k_lock].
      split; [| split; [| split; [| split; [| split]]]]; try assumption.
      * intros j' w'' H'.
        apply list_lookup_insert_Some in H' as [(<- & <- & _) | (Hne & H')].
        -- split; [| cbn [critical w_pc]; tauto].
           split; [repeat split; assumption | intros _; cbn [w_todo]; lia].
        -- destruct (Hall j' w'' H') as [Hok' Hcrit'].
           split; [exact Hok' |]. split.
           ++ intros Hc. apply Hcrit' in Hc. discriminate.
           ++ intros [= Heq]. apply Nat2Z.inj in Heq. congruence.
      * right. exists j. split; [now rewrite length_insert | reflexivity].
      * specialize (Hins (mkWorker st (S t) AtSize off)).
        cbn [calls_left w_pc w_todo Nat.pred] in Hins. lia.
    + (* another thread holds it: asleep, or interrupted and calling again *)
      assert (Hne : Z.of_nat h <> Z.of_nat j).
      { intros Heq. rewrite Heq in Hcrit. destruct Hcrit as [_ Hc].
        specialize (Hc eq_refl). discriminate. }
      cbn [sys_flock]. destruct (decide (Z.of_nat h = Z.of_nat j)) as [? | _];
        [contradiction |].
      destruct sig; [rewrite Lock_flock_interrupted |];
        (do 2 eexists; split; [reflexivity |];
         rewrite list_insert_id by assumption;
         exists n, bs; cbn [k_file k_lock];
         split; [exact Hall |];
         split; [right; exists h; split; [assumption | reflexivity] |];
         split; [assumption | split; [assumption | split; assumption]]).
  - (* size *)
    destruct Hpc as (Hok & Hoff & Hlog). rewrite Hoff, Hlog, size_fresh.
    cbn [bind fd_off].
    do 2 eexists. split; [reflexivity |].
    exists n, bs. cbn [k_file k_lock].
    split; [| split; [| split; [| split; [| split]]]]; try assumption.
    + intros j' w'' H'.
      apply list_lookup_insert_Some in H' as [(<- & <- & _) | (Hne & H')];
        [| exact (Hall j' w'' H')].
      split; [| exact Hcrit].
      split; [repeat split; assumption | intros _; cbn [w_todo]; lia].
    + destruct Hlock as [[Hl _] | (h & Hh & Hl)]; [left; now split |].
      right. exists h. split; [now rewrite length_insert | exact Hl].
    + specialize (Hins (mkWorker st (S t) (AtRefresh (blen bs)) 0)).
      cbn [calls_left w_pc w_todo Nat.pred] in Hins. lia.
  - (* refresh *)
    destruct Hpc as (Hok & Hoff & Hlog & ->). rewrite Hoff, Hlog.
    destruct (refresh_step n bs st Hok Hbs ltac:(lia)) as (st' & Hre & Hok').
    rewrite Hre. cbn [bind fst snd fd_off].
    do 2 eexists. split; [reflexivity |].
    exists n, bs. cbn [k_file k_lock].
    split; [| split; [| split; [| split; [| split]]]]; try assumption.
    + intros j' w'' H'.
      apply list_lookup_insert_Some in H' as [(<- & <- & _) | (Hne & H')];
        [| exact (Hall j' w'' H')].
      split; [| exact Hcrit].
      split; [repeat split; assumption | intros _; cbn [w_todo]; lia].
    + destruct Hlock as [[Hl _] | (h & Hh & Hl)]; [left; now split |].
      right. exists h. split; [now rewrite length_insert | exact Hl].
    + specialize (Hins (mkWorker st' (S t) (AtWriteKey (Z.of_nat (S n)))
                          (blen bs))).
      cbn [calls_left w_pc w_todo Nat.pred] in Hins. lia.
  - (* write the key *)
    destruct Hpc as (Hok & Hoff & Hlog & ->). rewrite Hoff, Hlog.
    rewrite writeString_at_end. cbn [fd_off fd_bytes].
    assert (Hl : kl = ExclusiveBy (Z.of_nat j)) by now apply Hcrit.
    do 2 eexists. split; [reflexivity |].
    exists n, bs. cbn [k_file k_lock default from_option id].
    split; [| split; [| split; [| split; [| split]]]]; try assumption.
    + intros j' w'' H'.
      apply list_lookup_insert_Some in H' as [(<- & <- & _) | (Hne & H')].
      * split; [| exact Hcrit].
        split; [repeat split; assumption | intros _; cbn [w_todo]; lia].
      * destruct (Hall j' w'' H') as [Hok' Hcrit'].
        split; [| exact Hcrit'].
        apply (worker_ok_outside n bs (default [] kf)); [| exact Hok'].
        destruct (critical (w_pc w'')); [| reflexivity].
        destruct Hcrit' as [Hc _]. specialize (Hc eq_refl).
        rewrite Hl in Hc. injection Hc as Hc. apply Nat2Z.inj in Hc.
        congruence.
    + right. exists j. split; [now rewrite length_insert | exact Hl].
    + specialize (Hins (mkWorker st (S t) (AtWriteValue (Z.of_nat (S n)))
                          (blen (bs ++ encode_str key)))).
      cbn [calls_left w_pc w_todo Nat.pred] in Hins. lia.
    + intros _. eauto.
  - (* write the value: the record is complete *)
    destruct Hpc as (Hok & Hoff & Hlog & ->). rewrite Hoff, Hlog.
    rewrite writeString_at_end. cbn [fd_off fd_bytes].
    assert (Hl : kl = ExclusiveBy (Z.of_nat j)) by now apply Hcrit.
    set (r := (key, to_string (Z.of_nat (S n)))) in *.
    assert (Hrec : (bs ++ encode_str key) ++ encode_str (to_string (Z.of_nat (S n)))
                   = bs ++ encode_record r).
    { unfold encode_record, r. cbn [fst snd]. now rewrite <- app_assoc. }
    rewrite Hrec.
    assert (Hn' : (S n <= total)%nat) by lia.
    pose proof (counter_growth_mono key (S n) total Hn') as Hmono'.
    do 2 eexists. split; [reflexivity |].
    exists (S n), (bs ++ encode_record r).
    cbn [k_file k_lock default from_option id].
    split; [| split; [| split; [| split; [| split]]]].
    + intros j' w'' H'.
      apply list_lookup_insert_Some in H' as [(<- & <- & _) | (Hne & H')].
      * split; [| exact Hcrit].
        split; [split; [exact Hok | reflexivity] | intros _; cbn [w_todo]; lia].
      * destruct (Hall j' w'' H') as [Hok' Hcrit'].
        split; [| exact Hcrit'].
        apply (worker_ok_commit n bs (default [] kf)); [| exact Hok'].
        destruct (critical (w_pc w'')); [| reflexivity].
        destruct Hcrit' as [Hc _]. specialize (Hc eq_refl).
        rewrite Hl in Hc. injection Hc as Hc. apply Nat2Z.inj in Hc.
        congruence.
    + right. exists j. split; [now rewrite length_insert | exact Hl].
    + now apply inst_ok_others.
    + specialize (Hins (mkWorker st (S t) (AtUnlock (Z.of_nat (S n)))
                          (blen (bs ++ encode_record r)))).
      cbn [calls_left w_pc w_todo Nat.pred] in Hins. lia.
    + rewrite blen_app. cbn [counter_growth] in *. fold r in Hmono' |- *. lia.
    + intros _. eauto.
  - (* the lock is released *)
    destruct Hpc as (Hok & Hlog).
    assert (Hl : kl = ExclusiveBy (Z.of_nat j)) by now apply Hcrit.
    rewrite Hl, Lock_dtor_releases. cbn [bind].
    do 2 eexists. split; [reflexivity |].
    exists n, bs. cbn [k_file k_lock].
    split; [| split; [| split; [| split; [| split]]]]; try assumption.
    + intros j' w'' H'.
      apply list_lookup_insert_Some in H' as [(<- & <- & _) | (Hne & H')].
      * split; [| cbn [critical w_pc]; split; discriminate].
        split; [exact Hok | intros _; cbn [w_todo]; lia].
      * destruct (Hall j' w'' H') as [Hok' Hcrit'].
        split; [exact Hok' |]. split; [| discriminate].
        intros Hc. apply Hcrit' in Hc. rewrite Hl in Hc.
        injection Hc as Hc. apply Nat2Z.inj in Hc. congruence.
    + left. split; [reflexivity | exact Hlog].
    + specialize (Hins (mkWorker st (S t) (AtClose ti) off)).
      cbn [calls_left w_pc w_todo Nat.pred] in Hins. lia.
  - (* the call returns *)
    do 2 eexists. split; [reflexivity |].
    exists n, bs. cbn [k_file k_lock].
    split; [| split; [| split; [| split; [| split]]]]; try assumption.
    + intros j' w'' H'.
      apply list_lookup_insert_Some in H' as [(<- & <- & _) | (Hne & H')];
        [| exact (Hall j' w'' H')].
      split; [| exact Hcrit].
      split; [exact Hpc | intros Hc; now contradiction Hc].
    + destruct Hlock as [[Hl ?] | (h & Hh & Hl)]; [left; now split |].
      right. exists h. split; [now rewrite length_insert | exact Hl].
    + specialize (Hins (mkWorker st t AtOpen 0)).
      cbn [calls_left w_pc w_todo Nat.pred] in Hins. lia.
Qed.

(** Any scheduling of the threads: every step returns, and the threads
    and the kernel stay as [workers_inv] has them. *)
Lemma run_workers_inv sched : forall ws k,
  workers_inv key total ws k ->
  exists ws' k',
    run_workers key sched ws k = Ret (ws', k')
    /\ workers_inv key total ws' k' /\ length ws' = length ws.
Proof.
  induction sched as [|[j sig] sched IH]; intros ws k Hinv.
  - exists ws, k. auto.
  - cbn [run_workers]. destruct (ws !! j) as [w|] eqn:Hj; [| now apply IH].
    destruct (worker_step_inv ws k j sig w Hinv Hj) as (w' & k' & Hstep & Hinv').
    rewrite Hstep. cbn [bind].
    destruct (IH _ _ Hinv') as (ws' & k'' & Hrun & Hinv'' & Hlen).
    exists ws', k''. rewrite length_insert in Hlen. auto.
Qed.

(** When every thread has left its loop the lock is free and the file
    is the log of all the increments. *)
Lemma workers_joined ws k :
  workers_inv key total ws k -> joined ws = true -> (0 < total)%nat ->
  exists bs,
    k_file k = Some bs /\ k_lock k = Free
    /\ inst_ok key total bs FileStore_new /\ blen bs < 2 ^ 31.
Proof.
  intros (n & bs & Hall & Hlock & Hnew & Hsum & Hsz & Hfile) Hjoin Hpos.
  unfold joined in Hjoin. rewrite forallb_forall in Hjoin.
  assert (Hdone : forall j w, ws !! j = Some w ->
                              w_todo w = 0%nat /\ w_pc w = AtOpen).
  { intros j w Hj.
    assert (Hz : w_todo w = 0%nat).
    { apply Nat.eqb_eq, Hjoin, list_elem_of_In.
      eapply list_elem_of_lookup_2. exact Hj. }
    split; [exact Hz |].
    destruct (Hall j w Hj) as [[_ Htodo] _].
    destruct (w_pc w); try reflexivity;
      (assert (0 < w_todo w)%nat by (apply Htodo; discriminate); lia). }
  assert (Hzero : sum_list (calls_left <$> ws) = 0%nat).
  { apply sum_calls_zero, Forall_lookup_2. intros j w Hj.
    destruct (Hdone j w Hj) as [H1 H2]. unfold calls_left. now rewrite H2. }
  assert (n = total) by lia. subst n.
  destruct Hlock as [[Hl Hlog] | (h & Hh & Hl)].
  - destruct Hfile as [bs' Hbs']; [lia |]. rewrite Hbs' in Hlog.
    cbn [default from_option id] in Hlog. subst bs'.
    exists bs. repeat split; try assumption. lia.
  - exfalso. destruct (lookup_lt_is_Some_2 ws h Hh) as [w Hw].
    destruct (Hall h w Hw) as [_ [_ Hc]]. specialize (Hc Hl).
    destruct (Hdone h w Hw) as [_ Hpc]. rewrite Hpc in Hc. discriminate.
Qed.

(** The threads as they start: stores fresh from their constructor, on a
    log of complete records that does not hold the key. *)
Lemma workers_inv_start N M fs0 rs0 :
  default [] fs0 = encode_log rs0 -> short_log rs0 ->
  apply_log rs0 ∅ !! key = None -> total = (N * M)%nat ->
  blen (encode_log rs0) + counter_growth key total < 2 ^ 31 ->
  workers_inv key total (replicate N (mkWorker FileStore_new M AtOpen 0))
    (mkKernel fs0 Free).
Proof.
  intros Hfs Hshort Hfresh HT Hsz.
  assert (Hnew : inst_ok key 0 (encode_log rs0) FileStore_new).
  { exists [], rs0. cbn [pos_ cache_ counter_text].
    split; [reflexivity | split; [reflexivity | split; [assumption |]]].
    split; [| assumption].
    destruct rs0; [now right | left; discriminate]. }
  exists 0%nat, (encode_log rs0). cbn [k_file k_lock].
  split; [| split; [| split; [| split; [| split]]]].
  - intros j w Hj. apply lookup_replicate in Hj as [-> _].
    split; [split; [exact Hnew | intros H; now contradiction H] |].
    cbn [w_pc critical]. split; discriminate.
  - left. split; [reflexivity | exact Hfs].
  - exact Hnew.
  - rewrite sum_calls_replicate. unfold calls_left. cbn [w_pc w_todo]. lia.
  - cbn [counter_growth]. lia.
  - intros H. now contradiction H.
Qed.

(** A thread that is not asleep in [flock] is one step further after
    its step. *)
Lemma worker_step_moves j sig w k w' k' :
  worker_step key j sig w k = Ret (w', k') ->
  (0 < w_todo w)%nat -> (w_pc w = AtLock -> k_lock k = Free) ->
  (steps_left w' + 1 = steps_left w)%nat.
Proof.
  destruct w as [st todo pc off]. destruct k as [kf kl].
  unfold worker_step, steps_left.
  cbn [w_todo w_pc w_store w_off k_file k_lock].
  destruct todo as [|t]; [lia |]. intros Hstep _ Hfree.
  destruct pc as [| | |sz|ti|ti|ti|ti].
  - rewrite open_create in Hstep. cbn [bind] in Hstep.
    injection Hstep as <- _. cbn [w_todo w_pc]. lia.
  - rewrite (Hfree eq_refl) in Hstep. cbn [sys_flock] in Hstep.
    rewrite Lock_flock_granted in Hstep.
    injection Hstep as <- _. cbn [w_todo w_pc]. lia.
  - destruct (size _) as [[sz f]| | |]; cbn [bind] in Hstep; try discriminate.
    injection Hstep as <- _. cbn [w_todo w_pc]. lia.
  - destruct (add_refresh _ _ _ _ _) as [[r f]| | |]; cbn [bind] in Hstep;
      try discriminate.
    injection Hstep as <- _. cbn [w_todo w_pc]. lia.
  - injection Hstep as <- _. cbn [w_todo w_pc]. lia.
  - injection Hstep as <- _. cbn [w_todo w_pc]. lia.
  - destruct (Lock_requests _ _) as [l| | |]; cbn [bind] in Hstep;
      try discriminate.
    injection Hstep as <- _. cbn [w_todo w_pc]. lia.
  - injection Hstep as <- _. cbn [w_todo w_pc]. destruct t; lia.
Qed.

Lemma steps_left_zero w : steps_left w = 0%nat -> w_todo w = 0%nat.
Proof.
  unfold steps_left. destruct (w_todo w) as [|t]; [reflexivity |].
  destruct (w_pc w); lia.
Qed.

(** The threads are never stuck: from every state of a run some
    scheduling brings every thread out of its loop. *)
Lemma workers_finish m : forall ws k,
  workers_inv key total ws k -> sum_list (steps_left <$> ws) = m ->
  exists sched ws' k',
    run_workers key sched ws k = Ret (ws', k') /\ joined ws' = true.
Proof.
  induction m as [|m IH]; intros ws k Hinv Hsum.
  - exists [], ws, k. split; [reflexivity |].
    unfold joined. apply forallb_forall. intros w Hw.
    apply list_elem_of_In, list_elem_of_lookup_1 in Hw as [j Hj].
    apply Nat.eqb_eq, steps_left_zero.
    pose proof (sum_calls_ge steps_left ws j w Hj). lia.
  - assert (Hpick : exists j w, ws !! j = Some w /\ (0 < w_todo w)%nat
                                /\ (w_pc w = AtLock -> k_lock k = Free)).
    { destruct Hinv as (n & bs & Hall & Hlock & _).
      destruct Hlock as [[Hl _] | (h & Hh & Hl)].
      - assert (Hex : exists j w, ws !! j = Some w /\ (0 < steps_left w)%nat).
        { clear -Hsum. revert m Hsum.
          induction ws as [|x ws IHws]; intros m Hsum; [discriminate |].
          unfold fmap in *. simpl in Hsum.
          destruct (steps_left x) as [|sx] eqn:Hx.
          - destruct (IHws m Hsum) as (j & w & Hj & Hw).
            exists (S j), w. auto.
          - exists 0%nat, x. split; [reflexivity | lia]. }
        destruct Hex as (j & w & Hj & Hw). exists j, w.
        split; [exact Hj | split; [| auto]].
        unfold steps_left in Hw. destruct (w_todo w); lia.
      - destruct (lookup_lt_is_Some_2 ws h Hh) as [w Hw].
        destruct (Hall h w Hw) as [[_ Htodo] [_ Hc]]. specialize (Hc Hl).
        exists h, w. split; [exact Hw | split].
        + apply Htodo. intros Hpc. rewrite Hpc in Hc. discriminate.
        + intros Hpc. rewrite Hpc in Hc. discriminate. }
    destruct Hpick as (j & w & Hj & Htodo & Hfree).
    destruct (worker_step_inv ws k j false w Hinv Hj)
      as (w' & k' & Hstep & Hinv').
    pose proof (worker_step_moves j false w k w' k' Hstep Htodo Hfree) as Hmove.
    pose proof (sum_calls_insert steps_left ws j w w' Hj) as Hins.
    destruct (IH (<[j := w']> ws) k' Hinv' ltac:(lia))
      as (sched & ws' & k'' & Hrun & Hjoin).
    exists ((j, false) :: sched), ws', k''. split; [| exact Hjoin].
    cbn [run_workers]. rewrite Hj, Hstep. exact Hrun.
Qed.

End Locked.

(** Reading leaves the bytes of the file alone. *)
Lemma readString_bytes f s f' :
  readString f = Ret (s, f') -> fd_bytes f' = fd_bytes f.
Proof.
  unfold readString, read. cbn [fd_bytes fd_off].
  destruct (blen _ <? 4); [discriminate |]. now intros [= _ <-].
Qed.

Lemma replay_bytes fuel : forall sz f st f' st',
  replay fuel sz f st = Ret (f', st') -> fd_bytes f' = fd_bytes f.
Proof.
  induction fuel as [|fuel IH]; intros sz f st f' st'; cbn [replay];
    destruct (sz >? pos_ st); try discriminate; try (now intros [= <- _]).
  destruct (readString f) as [[tk f1]| | |] eqn:E1; cbn [bind];
    try discriminate.
  destruct (readString f1) as [[tv f2]| | |] eqn:E2; cbn [bind];
    try discriminate.
  destruct (tell f2) as [p| | |]; cbn [bind]; try discriminate.
  intros Hre. apply IH in Hre. apply readString_bytes in E1, E2. congruence.
Qed.

Lemma add_refresh_bytes key i sz st f r f' :
  add_refresh key i sz st f = Ret (r, f') -> fd_bytes f' = fd_bytes f.
Proof.
  unfold add_refresh. destruct (sz >? pos_ st); cbn [bind].
  - unfold seek. destruct (_ <? 0); cbn [bind]; [discriminate |].
    destruct (replay _ _ _ _) as [[f1 st1]| | |] eqn:E; cbn [bind];
      try discriminate.
    destruct (in_int64 _); [| discriminate]. intros [= _ <-].
    now apply replay_bytes in E.
  - destruct (in_int64 _); [| discriminate]. now intros [= _ <-].
Qed.

(** X27: one thread on its own.  A call of [add key 1] made statement by
    statement, the lock taken and released, by a thread that no other
    thread disturbs, is [add]: the eight steps leave the store and the
    file that [add] returns, the lock free and one call less to make, and
    they throw or are undefined where [add] is; signals play no part. *)
Theorem worker_alone_is_add key st m fs sigs :
  length sigs = 8%nat ->
  run_workers key (map (fun sig => (0%nat, sig)) sigs)
    [mkWorker st (S m) AtOpen 0] (mkKernel fs Free)
  = let* (r, fs') := add key 1 st fs in
    Ret ([mkWorker (snd r) m AtOpen 0], mkKernel fs' Free).
Proof.
  intros Hlen.
  destruct sigs as [|s1 [|s2 [|s3 [|s4 [|s5 [|s6 [|s7 [|s8 [|]]]]]]]]];
    try discriminate.
  rewrite add_by_statements, open_create. cbn [map run_workers].
  cbn [lookup list_lookup worker_step w_todo w_pc w_store w_off k_file k_lock].
  rewrite open_create.
  cbn [bind fd_off fd_bytes insert list_insert lookup list_lookup
         worker_step w_todo w_pc w_store w_off k_file k_lock sys_flock
         default from_option id].
  rewrite Lock_flock_granted.
  cbn [bind fd_off fd_bytes insert list_insert lookup list_lookup
         worker_step w_todo w_pc w_store w_off k_file k_lock
         default from_option id].
  rewrite size_fresh.
  cbn [bind fd_off fd_bytes insert list_insert lookup list_lookup
         worker_step w_todo w_pc w_store w_off k_file k_lock
         default from_option id].
  destruct (add_refresh key 1 (blen (default [] fs)) st
              (mkFile (default [] fs) 0)) as [[r f1]| | |] eqn:E;
    cbn [bind]; try reflexivity.
  apply add_refresh_bytes in E. destruct f1 as [b1 o1].
  cbn [fd_bytes] in E. subst b1.
  cbn [bind fd_off fd_bytes insert list_insert lookup list_lookup
         worker_step w_todo w_pc w_store w_off k_file k_lock
         default from_option id fst snd].
  rewrite (Lock_dtor_releases 0).
  destruct (writeString (mkFile (default [] fs) o1) key) as [b2 o2].
  reflexivity.
Qed.

Lemma worker_alone_is_add_witness :
  length (replicate 8 false) = 8%nat
  /\ run_workers "counter" (map (fun sig => (0%nat, sig)) (replicate 8 false))
       [mkWorker FileStore_new 1 AtOpen 0] (mkKernel None Free)
     = Ret ([mkWorker (mkStore 0 {[ "counter"%string := EmptyString ]}) 0
               AtOpen 0],
            mkKernel (Some (encode_log [("counter", "1")%string])) Free).
Proof.
  split; [reflexivity |].
  rewrite (worker_alone_is_add "counter" FileStore_new 0 None
             (replicate 8 false) eq_refl).
  vm_compute. reflexivity.
Defined.

(** X26: threads with a store fresh from the constructor lose no
    increment, however they are scheduled.  [N] threads each call
    [add key 1] [M] times on a log of complete records that does not hold
    the key (the whole run staying below 2^31 bytes).  A step of a thread
    is one statement of [add] or one destructor; [flock] puts a thread to
    sleep while another descriptor holds the lock and is called again
    when a signal interrupts it.  Under every scheduling no step throws or
    is undefined, and once every thread has left its loop the lock is free
    and a fresh instance reads the decimal text of [N * M].  The threads
    are never stuck: every scheduling has a continuation that brings
    every thread out of its loop. *)
Theorem adds_under_flock_total key N M sched fs0 rs0 :
  short key -> default [] fs0 = encode_log rs0 -> short_log rs0 ->
  apply_log rs0 ∅ !! key = None ->
  blen (encode_log rs0) + counter_growth key (N * M) < 2 ^ 31 ->
  exists ws k,
    run_workers key sched (replicate N (mkWorker FileStore_new M AtOpen 0))
      (mkKernel fs0 Free) = Ret (ws, k)
    /\ (joined ws = true -> (0 < N * M)%nat ->
        k_lock k = Free
        /\ exists reader',
             get 1 key FileStore_new (k_file k)
             = Ret (to_string (Z.of_nat (N * M)), reader'))
    /\ exists more ws' k',
         run_workers key more ws k = Ret (ws', k') /\ joined ws' = true.
Proof.
  intros Hkey Hfs Hshort Hfresh Hsz.
  pose proof (counter_growth_ge key (N * M)) as Hge.
  pose proof (blen_nonneg (encode_log rs0)) as H0.
  assert (Hmax : Z.of_nat (N * M) <= INT64_MAX).
  { unfold INT64_MAX. change (2 ^ 63) with 9223372036854775808.
    change (2 ^ 31) with 2147483648 in Hsz. lia. }
  pose proof (workers_inv_start key (N * M) N M fs0 rs0 Hfs Hshort Hfresh
                eq_refl Hsz) as Hstart.
  destruct (run_workers_inv key Hkey (N * M) Hmax sched _ _ Hstart)
    as (ws & k & Hrun & Hinv & _).
  exists ws, k. split; [exact Hrun |].
  split; [| exact (workers_finish key Hkey (N * M) Hmax _ ws k Hinv eq_refl)].
  intros Hjoin Hpos.
  destruct (workers_joined key (N * M) ws k Hinv Hjoin Hpos)
    as (bs & Hfile & Hlock & (pre & rs & Hbs & Hp & Hrs & _ & Hval) & Hlt).
  split; [exact Hlock |]. rewrite Hfile.
  destruct (N * M)%nat as [|L] eqn:HL; [lia |]. cbn [counter_text] in Hval.
  eexists. unfold get.
  eapply (get_synced 0 _ 0%nat key FileStore_new bs pre rs);
    [reflexivity | | reflexivity | exact Hval].
  repeat split; assumption.
Qed.

Lemma adds_under_flock_total_witness :
  let sched := concat (replicate 24 [(0, false); (1, true)]%nat) in
  short "counter"
  /\ blen (encode_log []) + counter_growth "counter" (2 * 2) < 2 ^ 31
  /\ exists ws k,
       run_workers "counter" sched
         (replicate 2 (mkWorker FileStore_new 2 AtOpen 0)) (mkKernel None Free)
       = Ret (ws, k)
       /\ joined ws = true /\ k_lock k = Free
       /\ exists reader',
            get 1 "counter" FileStore_new (k_file k) = Ret ("4"%string, reader').
Proof.
  intros sched.
  assert (Hs : short "counter") by (vm_compute; reflexivity).
  assert (Hb : blen (encode_log []) + counter_growth "counter" (2 * 2) < 2 ^ 31)
    by (vm_compute; reflexivity).
  split; [exact Hs | split; [exact Hb |]].
  destruct (adds_under_flock_total "counter" 2 2 sched None [] Hs eq_refl
              (List.Forall_nil _) eq_refl Hb) as (ws & k & Hrun & Hfin).
  assert (Hj : joined ws = true).
  { assert (H : match run_workers "counter" sched
                        (replicate 2 (mkWorker FileStore_new 2 AtOpen 0))
                        (mkKernel None Free)
                with
                | Ret (ws', _) => joined ws'
                | _ => false
                end = true) by (vm_compute; reflexivity).
    now rewrite Hrun in H. }
  exists ws, k. split; [exact Hrun | split; [exact Hj |]].
  apply Hfin; [exact Hj | lia].
Defined.

(** Threads whose store has read the log to its end do lose increments,
    lock or no lock: two threads that have each read the 16-byte log
    (workers, 2) add 1 to the counter twice each, with one step each in
    turn.  Both get through their loops, the lock is free, and the log is
    the single record (counter, 1). *)
Example caught_up_threads_under_flock :
  (let* (_, fs) := set "workers" "2" FileStore_new None in
   let* (_, a) := get 1 "workers" FileStore_new fs in
   let* (_, b) := get 1 "workers" FileStore_new fs in
   let* (ws, k) := run_workers "counter"
                     (concat (replicate 24 [(0, false); (1, true)]%nat))
                     [mkWorker a 2 AtOpen 0; mkWorker b 2 AtOpen 0]
                     (mkKernel fs Free) in
   let* (v, _) := get 1 "counter" FileStore_new (k_file k) in
   Ret (joined ws, k_lock k, k_file k, v))
  = Ret (true, Free, Some (encode_log [("counter", "1")%string]),
         "1"%string).
Proof. vm_compute. reflexivity. Qed.

(** [main] once its threads are started: whatever their scheduling they
    run without fault, and [main] returns 0 when [join] has returned. *)
Lemma test_main_joined fuel sched :
  exists ws k,
    run_workers "counter" sched
      (replicate 4 (mkWorker FileStore_new 100 AtOpen 0))
      (mkKernel (Some (encode_log [("key0", "value0"); ("key1", "value1");
                                   ("key2", "value2")]%string)) Free)
    = Ret (ws, k)
    /\ test_main (S fuel) sched = (if joined ws then Ret 0 else Spin)
    /\ exists more ws' k',
         run_workers "counter" more ws k = Ret (ws', k') /\ joined ws' = true.
Proof.
  set (rs3 := [("key0", "value0"); ("key1", "value1"); ("key2", "value2")]%string).
  assert (Hshort3 : short_log rs3)
    by (repeat constructor; vm_compute; reflexivity).
  assert (Hsz3 : blen (encode_log rs3) < 2 ^ 31) by (vm_compute; reflexivity).
  assert (Hkey : short "counter") by (vm_compute; reflexivity).
  assert (Hmax : Z.of_nat 400 <= INT64_MAX) by (vm_compute; discriminate).
  assert (Hstart : workers_inv "counter" 400
                     (replicate 4 (mkWorker FileStore_new 100 AtOpen 0))
                     (mkKernel (Some (encode_log rs3)) Free)).
  { apply (workers_inv_start "counter" 400 4 100 (Some (encode_log rs3)) rs3);
      [reflexivity | exact Hshort3 | reflexivity | reflexivity
      | vm_compute; reflexivity]. }
  destruct (run_workers_inv "counter" Hkey 400 Hmax sched _ _ Hstart)
    as (ws & k & Hrun & Hinv & _).
  exists ws, k. split; [exact Hrun |].
  split; [| exact (workers_finish "counter" Hkey 400 Hmax _ ws k Hinv eq_refl)].
  unfold test_main.
  rewrite set_appends. cbn [bind]. rewrite set_appends. cbn [bind].
  rewrite set_appends. cbn [bind].
  match goal with
  | |- context [test_check _ FileStore_new (Some ?b) "key0"%string _] =>
      change b with (encode_log rs3)
  end.
  rewrite (test_check_fresh fuel rs3 "key0" "value0" Hshort3 Hsz3 eq_refl).
  cbn [bind].
  rewrite (test_check_cached (S fuel) _ _ "key1" "value1")
    by (vm_compute; reflexivity).
  cbn [bind].
  rewrite (test_check_cached (S fuel) _ _ "key2" "value2")
    by (vm_compute; reflexivity).
  cbn [bind].
  rewrite Hrun. cbn [bind].
  destruct (joined ws) eqn:Hjoin; [| reflexivity].
  destruct (workers_joined "counter" 400 ws k Hinv Hjoin ltac:(lia))
    as (bs & Hfile & _ & (pre & rs & Hbs & Hp & Hrs & _ & Hval) & Hlt).
  cbn [pos_ cache_ counter_text] in *.
  assert (Hpre : pre = []).
  { destruct pre; [reflexivity |].
    unfold FileStore_new, blen in Hp. cbn [pos_ length] in Hp. lia. }
  subst pre. cbn [app] in Hbs. subst bs. rewrite Hfile.
  change (Z.of_nat 400) with (4 * 100) in Hval.
  rewrite (test_check_fresh fuel rs "counter" _ Hrs Hlt Hval).
  reflexivity.
Qed.

(** X22: the test program passes however its threads are scheduled.
    Whatever the scheduling, no step of the four threads throws or is
    undefined; [main] returns 0, every [check] having found what it
    expects and the last one the counter at "400", as soon as [join] has
    returned for the four threads (it is still in [join] when the
    scheduling ends before they do).  The threads are never stuck: every
    scheduling has a continuation under which [main] returns 0.  Under a
    scheduler that gives each thread one step in turn, and thread 1 a
    signal at each step, the threads are through after 2500 rounds. *)
Theorem test_main_passes fuel sched :
  (exists ws k,
     run_workers "counter" sched
       (replicate 4 (mkWorker FileStore_new 100 AtOpen 0))
       (mkKernel (Some (encode_log [("key0", "value0"); ("key1", "value1");
                                    ("key2", "value2")]%string)) Free)
     = Ret (ws, k)
     /\ test_main (S fuel) sched = if joined ws then Ret 0 else Spin)
  /\ (exists more, test_main (S fuel) (sched ++ more) = Ret 0)
  /\ test_main (S fuel) (round_robin 2500) = Ret 0.
Proof.
  destruct (test_main_joined fuel sched)
    as (ws & k & Hrun & Hmain & more & ws' & k' & Hmore & Hjoin).
  split; [exists ws, k; split; assumption | split].
  - exists more.
    destruct (test_main_joined fuel (sched ++ more))
      as (ws2 & k2 & Hrun2 & -> & _).
    rewrite run_workers_app, Hrun in Hrun2. cbn [bind] in Hrun2.
    rewrite Hmore in Hrun2. injection Hrun2 as <- _. now rewrite Hjoin.
  - destruct (test_main_joined fuel (round_robin 2500))
      as (ws2 & k2 & Hrun2 & -> & _).
    assert (Hj : match run_workers "counter" (round_robin 2500)
                         (replicate 4 (mkWorker FileStore_new 100 AtOpen 0))
                         (mkKernel
                            (Some (encode_log [("key0", "value0");
                                               ("key1", "value1");
                                               ("key2", "value2")]%string))
                            Free)
                 with
                 | Ret (ws', _) => joined ws'
                 | _ => false
                 end = true) by (vm_compute; reflexivity).
    rewrite Hrun2 in Hj. now rewrite Hj.
Qed.

(** * Empty key lists, and adding for another reader *)

(** X23: an empty list of keys is always complete.  Whenever [check] of
    no key returns, it answers true, and [wait] for no key returns at its
    first poll with what that [check] left, whatever the timeout and
    without reading the clock again. *)
Theorem nothing_to_wait_for fuel kNoTimeout clock world timeout st b st' :
  check [] st (world 0%nat) = Ret (b, st') ->
  b = true
  /\ wait (S fuel) kNoTimeout clock world [] timeout st = Ret (tt, st').
Proof.
  intros H. pose proof H as H'. apply check_answer in H' as (_ & Hb).
  cbn [forallb] in Hb. subst b. split; [reflexivity |].
  unfold wait. cbn [wait_loop]. now rewrite H.
Qed.

Lemma nothing_to_wait_for_witness :
  check [] FileStore_new ((fun _ : nat => Some cut_log) 0%nat)
  = Ret (true, mkStore 10 {[ "k"%string := padded ["a"%byte] 2 ]})
  /\ wait 1 0 clock_10ms (fun _ => Some cut_log) [] 100 FileStore_new
     = Ret (tt, mkStore 10 {[ "k"%string := padded ["a"%byte] 2 ]}).
Proof.
  assert (H : check [] FileStore_new ((fun _ : nat => Some cut_log) 0%nat)
              = Ret (true, mkStore 10 {[ "k"%string := padded ["a"%byte] 2 ]}))
    by (vm_compute; reflexivity).
  split; [exact H |].
  exact (proj2 (nothing_to_wait_for 0 0 clock_10ms (fun _ => Some cut_log) 100
                  _ _ _ H)).
Defined.

(** X24: what one instance adds another reads.  When an instance whose
    cursor is behind the end of a log of complete records (or on an empty
    log) adds [d] to a key, the call returns the new total and a store
    fresh from its constructor then reads the decimal text of that total
    with [get], provided the total fits 64 bits, the key is shorter than
    2^32 bytes and the log stays below 2^31 bytes. *)
Theorem add_then_fresh_get fuel key d fs rs0 :
  short key -> default [] fs = encode_log rs0 -> short_log rs0 ->
  let t := extract_int64 (default EmptyString (apply_log rs0 ∅ !! key)) + d in
  in_int64 t = true ->
  blen (encode_log rs0 ++ encode_record (key, to_string t)) < 2 ^ 31 ->
  exists st' fs' reader',
    add key d FileStore_new fs = Ret (t, st', fs')
    /\ get (S fuel) key FileStore_new fs' = Ret (to_string t, reader').
Proof.
  intros Hkey Hfs Hshort t Hin Hsz.
  assert (Hsz0 : blen (encode_log rs0) < 2 ^ 31).
  { rewrite blen_app in Hsz.
    pose proof (blen_nonneg (encode_record (key, to_string t))). lia. }
  assert (Hsync : synced FileStore_new (encode_log rs0) [] rs0).
  { split; [reflexivity | split; [reflexivity | split; assumption]]. }
  pose proof (add_synced key d FileStore_new fs (encode_log rs0) [] rs0 Hfs
                Hsync) as Hadd.
  cbv zeta in Hadd. cbn [cache_ FileStore_new] in Hadd. fold t in Hadd.
  do 3 eexists. split.
  - apply Hadd; [| exact Hin].
    destruct rs0; [now right | left; discriminate].
  - unfold get.
    apply (get_synced fuel _ 0%nat key FileStore_new
             (encode_log rs0 ++ encode_str key ++ encode_str (to_string t)) []
             (rs0 ++ [(key, to_string t)]));
      [reflexivity | | reflexivity |].
    + split; [| split; [reflexivity | split]].
      * rewrite encode_log_app. cbn [encode_log app]. unfold encode_record.
        cbn [fst snd]. now rewrite app_nil_r, <- ?app_assoc.
      * apply short_log_app. split; [assumption |].
        repeat constructor; [assumption | apply short_to_string].
      * unfold encode_record in Hsz. cbn [fst snd] in Hsz. exact Hsz.
    + rewrite apply_log_app. unfold apply_log at 1. cbn [foldl fst snd].
      apply lookup_insert_eq.
Qed.

Lemma add_then_fresh_get_witness :
  short "rank"
  /\ exists st' fs' reader',
       add "rank" (-3) FileStore_new (Some (encode_log [("rank", "10")%string]))
       = Ret (extract_int64
                (default EmptyString
                   (apply_log [("rank", "10")%string] ∅ !! "rank"%string))
              + -3, st', fs')
       /\ get 1 "rank" FileStore_new fs'
          = Ret (to_string
                   (extract_int64
                      (default EmptyString
                         (apply_log [("rank", "10")%string] ∅ !! "rank"%string))
                    + -3), reader').
Proof.
  assert (Hs : short "rank") by (vm_compute; reflexivity).
  split; [exact Hs |].
  apply (add_then_fresh_get 0 "rank" (-3)
           (Some (encode_log [("rank", "10")%string]))
           [("rank", "10")%string] Hs);
    [reflexivity | repeat constructor; vm_compute; reflexivity
    | vm_compute; reflexivity | vm_compute; reflexivity].
Defined.

(** X25: an instance in step with the log stays in step.  When the cursor
    is at the start of complete records that reach the end of a log
    shorter than 2^31 bytes, [check] returns and leaves the cursor at the
    end of the log with every record replayed; so does [add] when the
    cursor is behind the end or the log is empty, its own record being the
    one record left to replay (the total fitting 64 bits, the key shorter
    than 2^32 bytes, the longer log below 2^31 bytes). *)
Theorem in_step_stays_in_step st bs pre rs :
  synced st bs pre rs ->
  (forall keys, exists b st',
     check keys st (Some bs) = Ret (b, st')
     /\ synced st' bs bs []
     /\ cache_ st' = apply_log rs (cache_ st))
  /\ (rs <> [] \/ bs = [] ->
      forall key i,
        let t := extract_int64
                   (default EmptyString (apply_log rs (cache_ st) !! key)) + i in
        short key -> in_int64 t = true ->
        blen (bs ++ encode_record (key, to_string t)) < 2 ^ 31 ->
        exists st',
          add key i st (Some bs)
          = Ret (t, st', Some (bs ++ encode_record (key, to_string t)))
          /\ synced st' (bs ++ encode_record (key, to_string t)) bs
               [(key, to_string t)]).
Proof.
  intros Hsync. split.
  - intros keys. rewrite (check_synced keys st bs pre rs Hsync).
    do 2 eexists. split; [reflexivity |].
    destruct Hsync as (_ & _ & _ & Hsz). cbn [pos_ cache_].
    split; [| reflexivity].
    split; [cbn [encode_log]; now rewrite app_nil_r |].
    split; [reflexivity | split; [constructor | exact Hsz]].
  - intros Hcase key i t Hkey Hin Hsz.
    pose proof (add_synced key i st (Some bs) bs pre rs eq_refl Hsync Hcase)
      as Hadd.
    cbv zeta in Hadd. fold t in Hadd. specialize (Hadd Hin).
    eexists. split; [exact Hadd |]. cbn [pos_].
    split; [cbn [encode_log]; now rewrite app_nil_r |].
    split; [reflexivity | split; [| exact Hsz]].
    repeat constructor; [assumption | apply short_to_string].
Qed.

Lemma in_step_stays_in_step_witness :
  synced FileStore_new (encode_log [("a", "b")%string]) [] [("a", "b")%string]
  /\ exists b st',
       check ["a"%string] FileStore_new (Some (encode_log [("a", "b")%string]))
       = Ret (b, st')
       /\ synced st' (encode_log [("a", "b")%string])
            (encode_log [("a", "b")%string]) []
       /\ cache_ st' = apply_log [("a", "b")%string] (cache_ FileStore_new).
Proof.
  assert (Hs : synced FileStore_new (encode_log [("a", "b")%string]) []
                 [("a", "b")%string]).
  { split; [reflexivity | split; [reflexivity | split]];
      [repeat constructor; vm_compute; reflexivity | vm_compute; reflexivity]. }
  split; [exact Hs |].
  exact (proj1 (in_step_stays_in_step _ _ _ _ Hs) ["a"%string]).
Defined.
